(** * share_mem: a single-producer/single-consumer ring buffer in shared memory

    Shallow embedding of the two backends of the repository
    - [shared_mem_posix.go]   (file-backed mapping under /tmp), module [Posix];
    - the Windows variant      (paging-file-backed named mapping), module [Windows];
    and the properties of the write/read protocol and of segment creation.

    Go's [sync/atomic] operations are sequentially consistent, so a run of a
    producer goroutine and a consumer goroutine is an interleaving of their
    atomic loads and stores.  Each method is therefore cut into program
    points (one per atomic access), a step function moves a call from one
    program point to the next, and a scheduler interleaves the steps of the
    two roles. *)

From Stdlib Require Import ZArith Lia.
From stdpp Require Import gmap strings list relations pretty.

Open Scope Z_scope.

(** ** Machine integers and durations *)

(** [const bufferSize = 1024]. *)
Definition bufferSize : Z := 1024.

(** Arithmetic on [uint64] wraps around at [2^64]. *)
Definition wrap64 (x : Z) : Z := x mod 2 ^ 64.

(** [time.Duration] counts nanoseconds. *)
Definition Duration := Z.
Definition Nanosecond : Duration := 1.
Definition Microsecond : Duration := 1000 * Nanosecond.

(** ** Struct layout: what [unsafe.Sizeof] returns *)

(** The field types the two structs use.  [atomic.Uint64] is 8 bytes and,
    through its [align64] marker, 8-byte aligned on every target; [uintptr]
    has the size and alignment of a machine word ([word] = 4 or 8 bytes). *)
Inductive GoType :=
| atomic_Uint64
| uintptr
| array (n : Z) (elem : GoType).

Fixpoint type_size (word : Z) (t : GoType) : Z :=
  match t with
  | atomic_Uint64 => 8
  | uintptr => word
  | array n elem => n * type_size word elem
  end.

Fixpoint type_align (word : Z) (t : GoType) : Z :=
  match t with
  | atomic_Uint64 => 8
  | uintptr => word
  | array _ elem => type_align word elem
  end.

(** Round [off] up to a multiple of [a]. *)
Definition align_up (off a : Z) : Z := (off + a - 1) / a * a.

(** Go lays the fields out in declaration order, each at the next offset
    aligned for its type; the struct is as aligned as its most aligned field
    and its size is a multiple of that alignment. *)
Definition field_end (word : Z) (off : Z) (f : string * GoType) : Z :=
  align_up off (type_align word f.2) + type_size word f.2.

Definition struct_align (word : Z) (fields : list (string * GoType)) : Z :=
  foldr (fun f a => Z.max (type_align word f.2) a) 1 fields.

Definition Sizeof (word : Z) (fields : list (string * GoType)) : Z :=
  align_up (foldl (field_end word) 0 fields) (struct_align word fields).

(** Offset of the field called [name]. *)
Fixpoint offset_from (word : Z) (off : Z) (fields : list (string * GoType))
    (name : string) : option Z :=
  match fields with
  | [] => None
  | f :: fields' =>
      if decide (f.1 = name) then Some (align_up off (type_align word f.2))
      else offset_from word (field_end word off f) fields' name
  end.

Definition Offsetof (word : Z) (fields : list (string * GoType)) (name : string)
  : option Z :=
  offset_from word 0 fields name.

(** ** The ring in shared memory *)

(** The cells the protocol reads and writes: [buffer [bufferSize]atomic.Uint64],
    [writeIdx] and [readIdx].  (The Windows struct has a fourth field [addr],
    which [Write] and [Read] never access; it appears in the layout below.) *)
Record SharedAtomicRingBuffer := mkRing {
  buffer : list Z;
  writeIdx : Z;
  readIdx : Z
}.

(** [rb.buffer[i].Load()]: indexing a Go array outside [0, bufferSize)
    panics; [None] stands for the panic. *)
Definition slot_load (buf : list Z) (i : Z) : option Z :=
  if decide (0 <= i < bufferSize) then buf !! Z.to_nat i else None.

(** [rb.buffer[i].Store(v)]. *)
Definition slot_store (buf : list Z) (i v : Z) : option (list Z) :=
  if decide (0 <= i < bufferSize) then Some (<[Z.to_nat i := v]> buf) else None.

(** [(i + 1) % bufferSize] on [uint64]. *)
Definition next_index (i : Z) : Z := wrap64 (i + 1) mod bufferSize.

(** What a spinning call does besides touching the ring: it burns time. *)
Inductive Event :=
| EvSpinWait (duration : Duration).

(** [SpinWait(duration)] loops on [runtime.Gosched()] until [duration] has
    elapsed on the monotonic clock; it touches no shared cell. *)
Definition SpinWait (duration : Duration) : Event := EvSpinWait duration.

(** One atomic step of a call: it is still running (possibly after a spin),
    it has returned, or it has panicked. *)
Inductive StepResult (F R : Type) :=
| Running (rb : SharedAtomicRingBuffer) (fr : F) (ev : option Event)
| Returned (rb : SharedAtomicRingBuffer) (ret : R)
| Panicked.
Arguments Running {F R} rb fr ev.
Arguments Returned {F R} rb ret.
Arguments Panicked {F R}.

(** Program points of [Write] with the locals live there. *)
Inductive WriteFrame :=
| W_entry (value : Z)                              (* before [rb.writeIdx.Load()] *)
| W_check (value writeIdx' nextWriteIdx : Z)       (* at the fullness test *)
| W_store (value writeIdx' nextWriteIdx : Z)       (* before [rb.buffer[writeIdx].Store(value)] *)
| W_publish (nextWriteIdx : Z).                    (* before [rb.writeIdx.Store(nextWriteIdx)] *)

(** Program points of [Read]. *)
Inductive ReadFrame :=
| R_entry                                          (* before [rb.readIdx.Load()] *)
| R_check (readIdx' : Z)                           (* at the emptiness test *)
| R_load (readIdx' : Z)                            (* before [rb.buffer[readIdx].Load()] *)
| R_advance (readIdx' value : Z).                  (* before [rb.readIdx.Store(...)] *)

(** [Read], identical in both files:
<<
  readIdx := rb.readIdx.Load()
  for readIdx == rb.writeIdx.Load() { SpinWait(1 * time.Microsecond) }
  value := rb.buffer[readIdx].Load()
  rb.readIdx.Store((readIdx + 1) % bufferSize)
  return value, true
>> *)
Definition Read_step (rb : SharedAtomicRingBuffer) (fr : ReadFrame)
  : StepResult ReadFrame (Z * bool) :=
  match fr with
  | R_entry => Running rb (R_check (readIdx rb)) None
  | R_check r =>
      if decide (r = writeIdx rb)
      then Running rb (R_check r) (Some (SpinWait (1 * Microsecond)))
      else Running rb (R_load r) None
  | R_load r =>
      match slot_load (buffer rb) r with
      | Some value => Running rb (R_advance r value) None
      | None => Panicked
      end
  | R_advance r value =>
      Returned (mkRing (buffer rb) (writeIdx rb) (next_index r)) (value, true)
  end.

(** ** The operating system, as segment creation sees it *)

(** Named backing stores with their bytes (files under a path on POSIX,
    named file-mapping objects on Windows), the handles this process holds
    on them (file descriptors, [HANDLE]s) and the regions it has mapped. *)
Record World := mkWorld {
  stores : gmap string (list Z);
  handles : gmap nat string;
  views : list (string * Z)
}.

(** Which of the system calls of a creation fail on their own account
    (permissions, resource limits).  Such a call acquires nothing and changes
    nothing.  [windows.CreateFileMapping] has one more way to return an
    error, which does not depend on these flags: see there. *)
Record Faults := mkFaults {
  create_fails : bool;     (* [os.OpenFile] / [windows.CreateFileMapping] *)
  resize_fails : bool;     (* [syscall.Ftruncate] *)
  map_fails : bool         (* [syscall.Mmap] / [windows.MapViewOfFile] *)
}.

Definition no_faults : Faults := mkFaults false false false.

(** The next free descriptor or handle number. *)
Definition fresh_handle (w : World) : nat := fresh (dom (handles w)).

(** [os.OpenFile(path, os.O_RDWR|os.O_CREATE|os.O_TRUNC, 0o666)]: the file
    is created if it does not exist and cut to length 0 if it does. *)
Definition os_OpenFile (flt : Faults) (path : string) (w : World) : World * option nat :=
  if create_fails flt then (w, None)
  else
    let fd := fresh_handle w in
    (mkWorld (<[path := []]> (stores w)) (<[fd := path]> (handles w)) (views w), Some fd).

(** [syscall.Ftruncate(fd, size)]: the file gets exactly [size] bytes; bytes
    beyond its old end read as zero. *)
Definition syscall_Ftruncate (flt : Faults) (fd : nat) (size : Z) (w : World)
  : World * bool :=
  if resize_fails flt then (w, false)
  else
    match handles w !! fd with
    | Some path =>
        match stores w !! path with
        | Some bytes =>
            (mkWorld (<[path := resize (Z.to_nat size) 0 bytes]> (stores w))
                     (handles w) (views w), true)
        | None => (w, false)
        end
    | None => (w, false)
    end.

(** [syscall.Mmap(fd, 0, size, PROT_READ|PROT_WRITE, MAP_SHARED)]. *)
Definition syscall_Mmap (flt : Faults) (fd : nat) (size : Z) (w : World)
  : World * option (string * Z) :=
  if map_fails flt then (w, None)
  else
    match handles w !! fd with
    | Some path =>
        (mkWorld (stores w) (handles w) (views w ++ [(path, size)]), Some (path, size))
    | None => (w, None)
    end.

(** [os.Remove(path)]. *)
Definition os_Remove (path : string) (w : World) : World :=
  mkWorld (delete path (stores w)) (handles w) (views w).

(** [file.Close()]. *)
Definition file_Close (fd : nat) (w : World) : World :=
  mkWorld (stores w) (delete fd (handles w)) (views w).

(** The error values of [windows.CreateFileMapping] that matter here. *)
Inductive Errno :=
| ERROR_ALREADY_EXISTS
| other_error.

(** [windows.CreateFileMapping(windows.InvalidHandle, nil, PAGE_READWRITE, 0,
    size, name)] of golang.org/x/sys/windows returns a handle and an error.
    Three outcomes:
    - the call fails: no handle, an error;
    - an object of that name exists: the call opens it and returns its
      handle TOGETHER WITH the error [ERROR_ALREADY_EXISTS] (the wrapper sets
      [err] when the handle is 0 or the system reports that the object
      existed);
    - otherwise the object is created, backed by the paging file and
      zero-filled: its handle, no error. *)
Definition windows_CreateFileMapping (flt : Faults) (size : Z) (name : string)
    (w : World) : World * option nat * option Errno :=
  if create_fails flt then (w, None, Some other_error)
  else
    let h := fresh_handle w in
    match stores w !! name with
    | Some _ =>
        (mkWorld (stores w) (<[h := name]> (handles w)) (views w),
         Some h, Some ERROR_ALREADY_EXISTS)
    | None =>
        (mkWorld (<[name := replicate (Z.to_nat size) 0]> (stores w))
                 (<[h := name]> (handles w)) (views w),
         Some h, None)
    end.

(** [windows.MapViewOfFile(handle, FILE_MAP_ALL_ACCESS, 0, 0, size)]. *)
Definition windows_MapViewOfFile (flt : Faults) (h : nat) (size : Z) (w : World)
  : World * option (string * Z) :=
  if map_fails flt then (w, None)
  else
    match handles w !! h with
    | Some name =>
        (mkWorld (stores w) (handles w) (views w ++ [(name, size)]), Some (name, size))
    | None => (w, None)
    end.

(** [windows.CloseHandle(h)].  (The kernel frees a paging-file-backed
    object when the last handle and view on it in any process are gone;
    other processes are not part of [World], so [stores] keeps the object.) *)
Definition windows_CloseHandle (h : nat) (w : World) : World :=
  mkWorld (stores w) (delete h (handles w)) (views w).

(** The 8 bytes at [off], little-endian, as a [uint64]. *)
Fixpoint le_uint (bytes : list Z) : Z :=
  match bytes with
  | [] => 0
  | b :: bytes' => b + 256 * le_uint bytes'
  end.

Definition load_uint64 (mem : list Z) (off : Z) : Z :=
  le_uint (take 8 (drop (Z.to_nat off) mem)).

(** The ring a process sees once [unsafe.Pointer(&mappedMemory[0])] is cast
    to a pointer to the struct, given the offsets of the three fields. *)
Definition view_ring (mem : list Z) (off_buffer off_writeIdx off_readIdx : Z)
  : SharedAtomicRingBuffer :=
  mkRing ((fun i => load_uint64 mem (off_buffer + 8 * Z.of_nat i))
            <$> seq 0 (Z.to_nat bufferSize))
         (load_uint64 mem off_writeIdx)
         (load_uint64 mem off_readIdx).

(** Why a creation failed: the three messages of the POSIX file
    ("failed to open shared memory file", "failed to set shared memory size",
    "failed to map shared memory") and the two of the Windows file
    ("failed to create file mapping", "failed to map view of file"). *)
Inductive error :=
| failed_to_open_shared_memory_file
| failed_to_set_shared_memory_size
| failed_to_map_shared_memory
| failed_to_create_file_mapping
| failed_to_map_view_of_file.

Module Posix.

(** [type SharedAtomicRingBuffer struct] of shared_mem_posix.go. *)
Definition SharedAtomicRingBuffer_fields : list (string * GoType) :=
  [("buffer", array bufferSize atomic_Uint64);
   ("writeIdx", atomic_Uint64);
   ("readIdx", atomic_Uint64)].

(** [size := unsafe.Sizeof(SharedAtomicRingBuffer{})]. *)
Definition segment_size (word : Z) : Z := Sizeof word SharedAtomicRingBuffer_fields.

Section Creation.
(** [filepath.Join] of the standard library, taken as it is. *)
Variable filepath_Join : string -> string -> string.

(** [NewSharedAtomicRingBuffer(name)]: the deferred [file.Close()] runs on
    every return after the file was opened; the two later error paths remove
    the file first.  The result is the mapped region or the error. *)
Definition NewSharedAtomicRingBuffer (flt : Faults) (word : Z) (name : string)
    (w : World) : World * (string * Z + error) :=
  let shmPath := filepath_Join "/tmp" name in
  match os_OpenFile flt shmPath w with
  | (w1, None) => (w1, inr failed_to_open_shared_memory_file)
  | (w1, Some fd) =>
      let size := segment_size word in
      match syscall_Ftruncate flt fd size w1 with
      | (w2, false) =>
          let w3 := os_Remove shmPath w2 in
          (file_Close fd w3, inr failed_to_set_shared_memory_size)
      | (w2, true) =>
          match syscall_Mmap flt fd size w2 with
          | (w3, None) =>
              let w4 := os_Remove shmPath w3 in
              (file_Close fd w4, inr failed_to_map_shared_memory)
          | (w3, Some region) => (file_Close fd w3, inl region)
          end
      end
  end.
End Creation.

(** The ring behind a mapped region. *)
Definition ring_of (word : Z) (w : World) (region : string * Z)
  : option SharedAtomicRingBuffer :=
  mem ← stores w !! region.1;
  b ← Offsetof word SharedAtomicRingBuffer_fields "buffer";
  wi ← Offsetof word SharedAtomicRingBuffer_fields "writeIdx";
  ri ← Offsetof word SharedAtomicRingBuffer_fields "readIdx";
  Some (view_ring mem b wi ri).

(** [Write] of shared_mem_posix.go:
<<
  writeIdx := rb.writeIdx.Load()
  nextWriteIdx := (writeIdx + 1) % bufferSize
  for nextWriteIdx == rb.readIdx.Load() { SpinWait(5 * time.Microsecond) }
  rb.buffer[writeIdx].Store(value)
  rb.writeIdx.Store(nextWriteIdx)
  return true
>> *)
Definition Write_step (rb : SharedAtomicRingBuffer) (fr : WriteFrame)
  : StepResult WriteFrame bool :=
  match fr with
  | W_entry value =>
      Running rb (W_check value (writeIdx rb) (next_index (writeIdx rb))) None
  | W_check value w n =>
      if decide (n = readIdx rb)
      then Running rb (W_check value w n) (Some (SpinWait (5 * Microsecond)))
      else Running rb (W_store value w n) None
  | W_store value w n =>
      match slot_store (buffer rb) w value with
      | Some buf' => Running (mkRing buf' (writeIdx rb) (readIdx rb)) (W_publish n) None
      | None => Panicked
      end
  | W_publish n =>
      Returned (mkRing (buffer rb) n (readIdx rb)) true
  end.

Definition Read_step := Read_step.

End Posix.

Module Windows.

(** [type SharedAtomicRingBuffer struct] of the Windows file: the same three
    fields and [addr uintptr]. *)
Definition SharedAtomicRingBuffer_fields : list (string * GoType) :=
  [("buffer", array bufferSize atomic_Uint64);
   ("writeIdx", atomic_Uint64);
   ("readIdx", atomic_Uint64);
   ("addr", uintptr)].

(** [unsafe.Sizeof(SharedAtomicRingBuffer{})], passed as [uint32] to
    [CreateFileMapping] and as [uintptr] to [MapViewOfFile]. *)
Definition segment_size (word : Z) : Z := Sizeof word SharedAtomicRingBuffer_fields.

(** [NewSharedAtomicRingBuffer(name)]:
<<
  fileMapping, err := windows.CreateFileMapping(...)
  if err != nil { return nil, fmt.Errorf("failed to create file mapping: %v", err) }
  addr, err := windows.MapViewOfFile(fileMapping, ...)
  if err != nil { windows.CloseHandle(fileMapping); return nil, ... }
>>
    The first test looks at [err] only: whatever handle came with the error
    is dropped, not closed.  When the view cannot be mapped the mapping
    handle is closed before the error is returned.  (Mapping a view through
    no handle fails.) *)
Definition NewSharedAtomicRingBuffer (flt : Faults) (word : Z) (name : string)
    (w : World) : World * (string * Z + error) :=
  match windows_CreateFileMapping flt (segment_size word mod 2 ^ 32) name w with
  | (w1, _, Some _) => (w1, inr failed_to_create_file_mapping)
  | (w1, None, None) => (w1, inr failed_to_map_view_of_file)
  | (w1, Some fileMapping, None) =>
      match windows_MapViewOfFile flt fileMapping (segment_size word) w1 with
      | (w2, None) =>
          (windows_CloseHandle fileMapping w2, inr failed_to_map_view_of_file)
      | (w2, Some region) => (w2, inl region)
      end
  end.

(** [Write] of the Windows file: the same text with [if] where the POSIX
    file has [for]:
<<
  if nextWriteIdx == rb.readIdx.Load() { SpinWait(5 * time.Microsecond) }
>>
    so after one wait the call goes on to the store whatever [readIdx] is. *)
Definition Write_step (rb : SharedAtomicRingBuffer) (fr : WriteFrame)
  : StepResult WriteFrame bool :=
  match fr with
  | W_entry value =>
      Running rb (W_check value (writeIdx rb) (next_index (writeIdx rb))) None
  | W_check value w n =>
      if decide (n = readIdx rb)
      then Running rb (W_store value w n) (Some (SpinWait (5 * Microsecond)))
      else Running rb (W_store value w n) None
  | W_store value w n =>
      match slot_store (buffer rb) w value with
      | Some buf' => Running (mkRing buf' (writeIdx rb) (readIdx rb)) (W_publish n) None
      | None => Panicked
      end
  | W_publish n =>
      Returned (mkRing (buffer rb) n (readIdx rb)) true
  end.

Definition Read_step := Read_step.

End Windows.

(** The two builds of the program. *)
Inductive Backend := posix | windows.

Definition Write_step (be : Backend) :=
  match be with
  | posix => Posix.Write_step
  | windows => Windows.Write_step
  end.

(** ** One call run alone *)

(** The result of running a call with no step of the other role in between:
    it returned (after the recorded waits), it is still in its loop when the
    fuel runs out, or it panicked. *)
Inductive Outcome (F R : Type) :=
| Done (rb : SharedAtomicRingBuffer) (ret : R) (waits : list Event)
| Spinning (rb : SharedAtomicRingBuffer) (fr : F) (waits : list Event)
| Panic.
Arguments Done {F R} rb ret waits.
Arguments Spinning {F R} rb fr waits.
Arguments Panic {F R}.

Definition log_event (ev : option Event) : list Event :=
  match ev with Some e => [e] | None => [] end.

Fixpoint run_call {F R} (step : SharedAtomicRingBuffer -> F -> StepResult F R)
    (fuel : nat) (rb : SharedAtomicRingBuffer) (fr : F) (waits : list Event)
  : Outcome F R :=
  match fuel with
  | O => Spinning rb fr waits
  | S fuel' =>
      match step rb fr with
      | Running rb' fr' ev => run_call step fuel' rb' fr' (waits ++ log_event ev)
      | Returned rb' ret => Done rb' ret waits
      | Panicked => Panic
      end
  end.

(** [rb.Write(value)] and [rb.Read()] as whole calls. *)
Definition Write (be : Backend) (fuel : nat) (rb : SharedAtomicRingBuffer) (value : Z)
  : Outcome WriteFrame bool :=
  run_call (Write_step be) fuel rb (W_entry value) [].

Definition Read (fuel : nat) (rb : SharedAtomicRingBuffer)
  : Outcome ReadFrame (Z * bool) :=
  run_call Read_step fuel rb R_entry [].

(** A call that returns without waiting takes four steps. *)
Definition call_steps : nat := 4.

(** Writing a list of values one call after the other, each call returning
    [true] without a single wait; [None] as soon as one call does not. *)
Fixpoint write_all (be : Backend) (rb : SharedAtomicRingBuffer) (vs : list Z)
  : option SharedAtomicRingBuffer :=
  match vs with
  | [] => Some rb
  | v :: vs' =>
      match Write be call_steps rb v with
      | Done rb' true [] => write_all be rb' vs'
      | _ => None
      end
  end.

(** ** The two goroutines of [main] *)

(** The producer goroutine calls [Write] once per value
    ([for i := 0; i < N; i++ { ringBuffer.Write(uint64(i + 1)) }]); the
    consumer goroutine calls [Read] for ever.  [p_rets] and [c_rets] log
    what the calls returned. *)
Record Producer := mkProducer {
  p_frame : option WriteFrame;
  p_todo : list Z;
  p_rets : list bool
}.

Record Consumer := mkConsumer {
  c_frame : option ReadFrame;
  c_rets : list (Z * bool)
}.

Record System := mkSystem {
  shm : SharedAtomicRingBuffer;
  sys_prod : Producer;
  sys_cons : Consumer
}.

Inductive Role := producer | consumer.

Inductive SysResult :=
| SysOk (s : System)
| SysHalt            (* the scheduled goroutine has finished *)
| SysPanic.

Definition producer_step (be : Backend) (s : System) : SysResult :=
  let p := sys_prod s in
  match p_frame p with
  | None =>
      match p_todo p with
      | [] => SysHalt
      | v :: vs => SysOk (mkSystem (shm s) (mkProducer (Some (W_entry v)) vs (p_rets p)) (sys_cons s))
      end
  | Some fr =>
      match Write_step be (shm s) fr with
      | Running rb fr' _ =>
          SysOk (mkSystem rb (mkProducer (Some fr') (p_todo p) (p_rets p)) (sys_cons s))
      | Returned rb b =>
          SysOk (mkSystem rb (mkProducer None (p_todo p) (p_rets p ++ [b])) (sys_cons s))
      | Panicked => SysPanic
      end
  end.

Definition consumer_step (s : System) : SysResult :=
  let c := sys_cons s in
  match c_frame c with
  | None => SysOk (mkSystem (shm s) (sys_prod s) (mkConsumer (Some R_entry) (c_rets c)))
  | Some fr =>
      match Read_step (shm s) fr with
      | Running rb fr' _ =>
          SysOk (mkSystem rb (sys_prod s) (mkConsumer (Some fr') (c_rets c)))
      | Returned rb r =>
          SysOk (mkSystem rb (sys_prod s) (mkConsumer None (c_rets c ++ [r])))
      | Panicked => SysPanic
      end
  end.

Definition sys_step (be : Backend) (t : Role) (s : System) : SysResult :=
  match t with
  | producer => producer_step be s
  | consumer => consumer_step s
  end.

(** Running a schedule: the list says whose atomic step comes next. *)
Fixpoint run (be : Backend) (sched : list Role) (s : System) : SysResult :=
  match sched with
  | [] => SysOk s
  | t :: sched' =>
      match sys_step be t s with
      | SysOk s' => run be sched' s'
      | r => r
      end
  end.

(** One step of either goroutine, and the states some interleaving reaches. *)
Definition step (be : Backend) (s s' : System) : Prop :=
  exists t, sys_step be t s = SysOk s'.

Definition reachable (be : Backend) (s0 s : System) : Prop := rtc (step be) s0 s.

(** The segment as a fresh mapping shows it: every byte zero. *)
Definition zero_ring : SharedAtomicRingBuffer :=
  mkRing (replicate (Z.to_nat bufferSize) 0) 0 0.

Definition init_system (rb : SharedAtomicRingBuffer) (vs : list Z) : System :=
  mkSystem rb (mkProducer None vs []) (mkConsumer None []).

(** ** Predicates on the ring *)

(** The layout is respected: [bufferSize] slots and both cursors inside
    [0, bufferSize). *)
Definition ring_wf (rb : SharedAtomicRingBuffer) : Prop :=
  length (buffer rb) = Z.to_nat bufferSize /\
  0 <= writeIdx rb < bufferSize /\
  0 <= readIdx rb < bufferSize.

Definition is_empty (rb : SharedAtomicRingBuffer) : Prop := writeIdx rb = readIdx rb.
Definition is_full (rb : SharedAtomicRingBuffer) : Prop := next_index (writeIdx rb) = readIdx rb.

(** Number of slots from [readIdx] (inclusive) to [writeIdx] (exclusive). *)
Definition unread_count (rb : SharedAtomicRingBuffer) : nat :=
  Z.to_nat ((writeIdx rb - readIdx rb) mod bufferSize).

(** The values of [n] consecutive slots starting at slot [i]. *)
Fixpoint slots_from (buf : list Z) (i : Z) (n : nat) : list Z :=
  match n with
  | O => []
  | S n' => default 0 (buf !! Z.to_nat i) :: slots_from buf (next_index i) n'
  end.

(** The written-but-not-yet-read values, oldest first. *)
Definition unread (rb : SharedAtomicRingBuffer) : list Z :=
  slots_from (buffer rb) (readIdx rb) (unread_count rb).

(** A call blocks when, left alone, it never returns. *)
Definition Write_blocks (be : Backend) (rb : SharedAtomicRingBuffer) (value : Z) : Prop :=
  forall fuel, exists fr waits, Write be fuel rb value = Spinning rb fr waits.

Definition Read_blocks (rb : SharedAtomicRingBuffer) : Prop :=
  forall fuel, exists fr waits, Read fuel rb = Spinning rb fr waits.

(** The ring after a completed [Write] of [v], and after a completed [Read]. *)
Definition written (rb : SharedAtomicRingBuffer) (v : Z) : SharedAtomicRingBuffer :=
  mkRing (<[Z.to_nat (writeIdx rb) := v]> (buffer rb)) (next_index (writeIdx rb)) (readIdx rb).

Definition advanced (rb : SharedAtomicRingBuffer) : SharedAtomicRingBuffer :=
  mkRing (buffer rb) (writeIdx rb) (next_index (readIdx rb)).

(** The oldest unread slot. *)
Definition front (rb : SharedAtomicRingBuffer) : Z :=
  default 0 (buffer rb !! Z.to_nat (readIdx rb)).

(** A schedule that lets the producer make one whole call, then the
    consumer one whole call, [n] times over (a call is entered in one step
    and takes [call_steps] more). *)
Definition round : list Role :=
  replicate (S call_steps) producer ++ replicate (S call_steps) consumer.

Definition lockstep (n : nat) : list Role := concat (replicate n round).

(** ** Concrete inputs *)

(** What [filepath.Join] returns for a directory and a plain file name. *)
Definition plain_Join (dir name : string) : string := dir +:+ "/" +:+ name.

(** A world in which nothing exists yet. *)
Definition empty_world : World := mkWorld ∅ ∅ [].

(** The world of a process about to attach to a Windows segment that
    another process has created: the named object exists, this process
    holds no handle and no view yet. *)
Definition attached_world : World :=
  mkWorld {["SharedRingBuffer" := replicate (Z.to_nat 8216) 0]} ∅ [].

(** A backing file left behind by an earlier run: [8208] bytes in which
    slot 0 holds 42 and [writeIdx] is 1. *)
Definition stale_bytes : list Z :=
  <[Z.to_nat 8192 := 1]> (<[Z.to_nat 0 := 42]> (replicate (Z.to_nat 8208) 0)).

Definition stale_world : World :=
  mkWorld {["/tmp/SharedRingBuffer" := stale_bytes]} ∅ [].

(** ** Observations *)

(** The values the producer goroutine of [main] writes: [uint64(i + 1)] for
    [i = 0, ..., n - 1]. *)
Definition main_values (n : nat) : list Z :=
  (fun i => wrap64 (Z.of_nat i + 1)) <$> seq 0 n.

(** What the two goroutines have seen returned at the end of a run. *)
Definition observe (r : SysResult) : option (list bool * list (Z * bool)) :=
  match r with
  | SysOk s => Some (p_rets (sys_prod s), c_rets (sys_cons s))
  | _ => None
  end.

(** The duration of the wait a step made, if it made one. *)
Definition wait_of {F R} (r : StepResult F R) : option Duration :=
  match r with
  | Running _ _ (Some (EvSpinWait d)) => Some d
  | _ => None
  end.

(** A wait is tunable when something the call is given (the ring, its
    arguments, its locals) can change how long it lasts. *)
Definition tunable_wait {F R} (step : SharedAtomicRingBuffer -> F -> StepResult F R)
  : Prop :=
  exists rb1 fr1 d1 rb2 fr2 d2,
    wait_of (step rb1 fr1) = Some d1 /\
    wait_of (step rb2 fr2) = Some d2 /\
    d1 <> d2.

(** ** Invariants of the interleaved system *)

(** The values the producer still has to publish: the one of the call in
    progress (already in its slot once the call is at [W_publish]) and the
    ones of the calls to come. *)
Definition pending (rb : SharedAtomicRingBuffer) (p : Producer) : list Z :=
  match p_frame p with
  | Some (W_entry v) | Some (W_check v _ _) | Some (W_store v _ _) => v :: p_todo p
  | Some (W_publish _) => default 0 (buffer rb !! Z.to_nat (writeIdx rb)) :: p_todo p
  | None => p_todo p
  end.

(** What the locals of a [Write] in progress know about the ring (POSIX). *)
Definition producer_inv (rb : SharedAtomicRingBuffer) (p : Producer) : Prop :=
  match p_frame p with
  | None | Some (W_entry _) => True
  | Some (W_check _ w n) => w = writeIdx rb /\ n = next_index w
  | Some (W_store _ w n) => w = writeIdx rb /\ n = next_index w /\ n <> readIdx rb
  | Some (W_publish n) => n = next_index (writeIdx rb) /\ n <> readIdx rb
  end.

(** What the locals of a [Read] in progress know about the ring. *)
Definition consumer_inv (rb : SharedAtomicRingBuffer) (c : Consumer) : Prop :=
  match c_frame c with
  | None | Some R_entry => True
  | Some (R_check r) => r = readIdx rb
  | Some (R_load r) => r = readIdx rb /\ r <> writeIdx rb
  | Some (R_advance r v) =>
      r = readIdx rb /\ r <> writeIdx rb /\ buffer rb !! Z.to_nat r = Some v
  end.

(** The FIFO invariant for a producer that was given [vs]: what was read,
    then what is unread in the ring, then what is still to be published,
    is [vs]; and the published values that were not read yet are exactly
    the unread window. *)
Record fifo_inv (vs : list Z) (s : System) : Prop := mk_fifo_inv {
  inv_wf : ring_wf (shm s);
  inv_prod : producer_inv (shm s) (sys_prod s);
  inv_cons : consumer_inv (shm s) (sys_cons s);
  inv_hist : (c_rets (sys_cons s)).*1 ++ unread (shm s) ++ pending (shm s) (sys_prod s) = vs;
  inv_oks : Forall (fun r => r.2 = true) (c_rets (sys_cons s));
  inv_rets : Forall (fun b => b = true) (p_rets (sys_prod s));
  inv_count : length (p_rets (sys_prod s))
              = (length (c_rets (sys_cons s)) + unread_count (shm s))%nat
}.

(** The weaker invariant both backends keep: every index held in the ring
    or in a local is inside [0, bufferSize). *)
Definition write_frame_in_range (fr : WriteFrame) : Prop :=
  match fr with
  | W_entry _ => True
  | W_check _ w n | W_store _ w n => 0 <= w < bufferSize /\ 0 <= n < bufferSize
  | W_publish n => 0 <= n < bufferSize
  end.

Definition read_frame_in_range (fr : ReadFrame) : Prop :=
  match fr with
  | R_entry => True
  | R_check r | R_load r | R_advance r _ => 0 <= r < bufferSize
  end.

Definition range_inv (s : System) : Prop :=
  ring_wf (shm s) /\
  from_option write_frame_in_range True (p_frame (sys_prod s)) /\
  from_option read_frame_in_range True (c_frame (sys_cons s)) /\
  Forall (fun b => b = true) (p_rets (sys_prod s)) /\
  Forall (fun r => r.2 = true) (c_rets (sys_cons s)).

(** ** The rest of the two files *)

(** *** [SpinWait] *)

(** [SpinWait(duration)], the same in both files:
<<
  start := time.Now()
  for time.Since(start) < duration { runtime.Gosched() }
>>
    The monotonic clock enters as the values [time.Since(start)] takes:
    [elapsed i] is what its evaluation number [i] returns.  The result is the
    number of the evaluation at which the loop was left, which is also the
    number of calls of [runtime.Gosched()]; [None] when the fuel runs out
    first. *)
Fixpoint SpinWait_loop (elapsed : nat -> Duration) (duration : Duration)
    (fuel i : nat) : option nat :=
  match fuel with
  | O => None
  | S fuel' =>
      if decide (elapsed i < duration)
      then SpinWait_loop elapsed duration fuel' (S i)
      else Some i
  end.

Definition SpinWait_run (elapsed : nat -> Duration) (duration : Duration)
    (fuel : nat) : option nat :=
  SpinWait_loop elapsed duration fuel 0.

(** *** Waiting steps of a schedule *)

(** Whether the step the schedule gives to [t] is a [Write] finding the
    ring full (and calling [SpinWait]). *)
Definition finds_full (be : Backend) (t : Role) (s : System) : bool :=
  match t, p_frame (sys_prod s) with
  | producer, Some fr => bool_decide (is_Some (wait_of (Write_step be (shm s) fr)))
  | _, _ => false
  end.

(** How many times along a schedule a [Write] found the ring full. *)
Fixpoint full_waits (be : Backend) (sched : list Role) (s : System) : nat :=
  match sched with
  | [] => 0
  | t :: sched' =>
      ((if finds_full be t s then 1 else 0) +
       match sys_step be t s with
       | SysOk s' => full_waits be sched' s'
       | _ => 0
       end)%nat
  end.

#[global] Instance Role_eq_dec : EqDecision Role.
Proof. solve_decision. Defined.

(** How many steps a schedule gives to the role [t]. *)
Definition steps_of (t : Role) (sched : list Role) : nat :=
  length (filter (fun x => x = t) sched).

(** Where a [Write] in progress stands: the number of steps the producer
    has made since its last call returned. *)
Definition write_position (pf : option WriteFrame) : nat :=
  match pf with
  | None => 0
  | Some (W_entry _) => 1
  | Some (W_check _ _ _) => 2
  | Some (W_store _ _ _) => 3
  | Some (W_publish _) => 4
  end.

(** *** [Close] (Windows file) *)

(** A [uintptr] field read from the mapped bytes. *)
Definition load_uintptr (word : Z) (mem : list Z) (off : Z) : Z :=
  le_uint (take (Z.to_nat word) (drop (Z.to_nat off) mem)).

(** [windows.UnmapViewOfFile(addr)]: [bases] lists the base addresses of
    the views of [views w], in the same order.  The view that starts at
    [addr] is unmapped; when no view starts there the call fails and changes
    nothing. *)
Definition windows_UnmapViewOfFile (addr : Z) (bases : list Z) (w : World)
  : World * list Z * bool :=
  match list_find (fun b => b = addr) bases with
  | Some (i, _) =>
      (mkWorld (stores w) (handles w) (delete i (views w)), delete i bases, true)
  | None => (w, bases, false)
  end.

Module WindowsClose.

(** [func (rb *SharedAtomicRingBuffer) Close() { windows.UnmapViewOfFile(rb.addr) }]:
    [rb.addr] is the field [addr] of the struct in the mapped region; the
    result of the call is dropped. *)
Definition Close (word : Z) (bases : list Z) (region : string * Z) (w : World)
  : World * list Z :=
  match stores w !! region.1,
        Offsetof word Windows.SharedAtomicRingBuffer_fields "addr" with
  | Some mem, Some off =>
      (windows_UnmapViewOfFile (load_uintptr word mem off) bases w).1
  | _, _ => (w, bases)
  end.

End WindowsClose.

(** *** [main] *)

Definition newline : string := String (Ascii.ascii_of_nat 10) EmptyString.

(** [fmt.Printf("Consumer: Read %d\n", value)]. *)
Definition consumer_line (value : Z) : string :=
  "Consumer: Read " +:+ pretty value +:+ newline.

(** What the consumer goroutine
<<
  for { value, ok := ringBuffer.Read(); if ok { fmt.Printf(...) } }
>>
    has printed when the process exits.  Between the return of a [Read] and
    the next call lies the [Printf]; [last_printed] says whether it was
    reached for the last [Read] that returned. *)
Definition consumer_printed (last_printed : bool) (c : Consumer) : list string :=
  let reads :=
    match c_frame c with
    | None => if last_printed then c_rets c else take (length (c_rets c) - 1) (c_rets c)
    | Some _ => c_rets c
    end in
  flat_map (fun r : Z * bool => if r.2 then [consumer_line r.1] else []) reads.

(** How [main] ends: [log.Fatalf] after a failed creation, a normal exit
    when [time.Sleep] is over (with what went to standard output), or a
    panic in a goroutine. *)
Inductive MainResult :=
| Fatal (e : error)
| Exited (stdout : list string)
| Crashed.

Module PosixMain.
Section Main.
Variable filepath_Join : string -> string -> string.

(** [main] of shared_mem_posix.go.  [sched] is what the scheduler let the
    two goroutines do until the sleep of two seconds was over; [None] when
    [sched] gives a step to a goroutine that has finished. *)
Definition main (flt : Faults) (word : Z) (w : World) (sched : list Role)
    (last_printed : bool) : option MainResult :=
  match Posix.NewSharedAtomicRingBuffer filepath_Join flt word "SharedRingBuffer" w with
  | (_, inr e) => Some (Fatal e)
  | (w', inl region) =>
      match Posix.ring_of word w' region with
      | None => Some Crashed
      | Some ringBuffer =>
          match run posix sched
                  (init_system ringBuffer (main_values (Z.to_nat 10000000))) with
          | SysOk s => Some (Exited (consumer_printed last_printed (sys_cons s)))
          | SysHalt => None
          | SysPanic => Some Crashed
          end
      end
  end.
End Main.
End PosixMain.

(** * Properties *)

(** ** Index arithmetic *)

(** The layout invariant of a concrete ring, by evaluation. *)
Ltac ring_wf_by_evaluation := repeat split; vm_compute; congruence.

Lemma bufferSize_gt_1 : 1 < bufferSize.
Proof. reflexivity. Qed.

Lemma bufferSize_divides_wrap : (2 ^ 64) mod bufferSize = 0.
Proof. reflexivity. Qed.

Lemma next_index_range i : 0 <= next_index i < bufferSize.
Proof. unfold next_index. apply Z.mod_pos_bound. pose proof bufferSize_gt_1. lia. Qed.

Lemma next_index_cases i :
  0 <= i < bufferSize ->
  (i + 1 < bufferSize /\ next_index i = i + 1) \/
  (i + 1 = bufferSize /\ next_index i = 0).
Proof.
  intros Hi. unfold next_index, wrap64.
  assert (Hb : bufferSize < 2 ^ 64) by reflexivity.
  rewrite (Z.mod_small (i + 1)) by lia.
  destruct (decide (i + 1 < bufferSize)) as [Hlt|Hge].
  - left. split; [done|]. apply Z.mod_small. lia.
  - right. assert (i + 1 = bufferSize) as -> by lia.
    split; [done|]. apply Z.mod_same. pose proof bufferSize_gt_1. lia.
Qed.

Lemma next_index_inj i j :
  0 <= i < bufferSize -> 0 <= j < bufferSize ->
  next_index i = next_index j -> i = j.
Proof.
  intros Hi Hj.
  destruct (next_index_cases i Hi) as [[? ->]|[? ->]],
           (next_index_cases j Hj) as [[? ->]|[? ->]]; lia.
Qed.

Lemma next_index_neq i : 0 <= i < bufferSize -> next_index i <> i.
Proof.
  intros Hi. pose proof bufferSize_gt_1.
  destruct (next_index_cases i Hi) as [[? ->]|[? ->]]; lia.
Qed.

(** Distance from slot [i] forward to slot [j], around the ring. *)
Lemma ring_dist_cases i j :
  0 <= i < bufferSize -> 0 <= j < bufferSize ->
  (i <= j /\ (j - i) mod bufferSize = j - i) \/
  (j < i /\ (j - i) mod bufferSize = j - i + bufferSize).
Proof.
  intros Hi Hj. destruct (decide (i <= j)) as [Hle|Hgt].
  - left. split; [done|]. apply Z.mod_small. lia.
  - right. split; [lia|].
    rewrite <- (Z.mod_add (j - i) 1 bufferSize) by (pose proof bufferSize_gt_1; lia).
    apply Z.mod_small. lia.
Qed.

Lemma ring_dist_range i j : 0 <= (j - i) mod bufferSize < bufferSize.
Proof. apply Z.mod_pos_bound. pose proof bufferSize_gt_1. lia. Qed.

Lemma ring_dist_next_l i j :
  0 <= i < bufferSize -> 0 <= j < bufferSize -> i <> j ->
  (j - next_index i) mod bufferSize = (j - i) mod bufferSize - 1.
Proof.
  intros Hi Hj Hne. pose proof (next_index_range i) as Hn.
  destruct (next_index_cases i Hi) as [[? Hni]|[? Hni]];
    destruct (ring_dist_cases i j Hi Hj) as [[? ->]|[? ->]];
    destruct (ring_dist_cases (next_index i) j Hn Hj) as [[? ->]|[? ->]]; lia.
Qed.

Lemma ring_dist_next_r i j :
  0 <= i < bufferSize -> 0 <= j < bufferSize -> next_index j <> i ->
  (next_index j - i) mod bufferSize = (j - i) mod bufferSize + 1.
Proof.
  intros Hi Hj Hne. pose proof (next_index_range j) as Hn.
  destruct (next_index_cases j Hj) as [[? Hnj]|[? Hnj]];
    destruct (ring_dist_cases i j Hi Hj) as [[? ->]|[? ->]];
    destruct (ring_dist_cases i (next_index j) Hi Hn) as [[? ->]|[? ->]]; lia.
Qed.

Lemma ring_dist_full i j :
  0 <= i < bufferSize -> 0 <= j < bufferSize -> next_index j = i ->
  (j - i) mod bufferSize = bufferSize - 1.
Proof.
  intros Hi Hj Heq.
  destruct (next_index_cases j Hj) as [[? Hnj]|[? Hnj]];
    destruct (ring_dist_cases i j Hi Hj) as [[? ->]|[? ->]]; lia.
Qed.

Lemma ring_dist_same i : (i - i) mod bufferSize = 0.
Proof. by rewrite Z.sub_diag. Qed.

(** ** The unread window *)

Lemma slots_from_length buf i n : length (slots_from buf i n) = n.
Proof. revert i. induction n as [|n IH]; intros i; simpl; [done|]. by rewrite IH. Qed.

(** A store to a slot outside the window leaves the window as it is. *)
Lemma slots_from_insert_outside buf i w v n :
  0 <= i < bufferSize -> 0 <= w < bufferSize ->
  Z.of_nat n <= (w - i) mod bufferSize ->
  slots_from (<[Z.to_nat w := v]> buf) i n = slots_from buf i n.
Proof.
  revert i. induction n as [|n IH]; intros i Hi Hw Hn; [done|].
  assert (i <> w) as Hne.
  { intros ->. rewrite ring_dist_same in Hn. lia. }
  simpl. rewrite list_lookup_insert_ne by lia. f_equal.
  apply IH; [apply next_index_range|done|].
  rewrite ring_dist_next_l by done. lia.
Qed.

Lemma iter_next_index i j n :
  0 <= i < bufferSize -> 0 <= j < bufferSize ->
  Z.of_nat n = (j - i) mod bufferSize ->
  Nat.iter n next_index i = j.
Proof.
  revert i. induction n as [|n IH]; intros i Hi Hj Hn.
  - simpl. destruct (ring_dist_cases i j Hi Hj) as [[? Hd]|[? Hd]]; lia.
  - assert (i <> j) as Hne.
    { intros ->. rewrite ring_dist_same in Hn. lia. }
    rewrite Nat.iter_succ_r. apply IH; [apply next_index_range|done|].
    rewrite ring_dist_next_l by done. lia.
Qed.

Lemma slots_from_snoc buf i n :
  slots_from buf i (S n) =
  slots_from buf i n ++ [default 0 (buf !! Z.to_nat (Nat.iter n next_index i))].
Proof.
  revert i. induction n as [|n IH]; intros i; [done|].
  change (slots_from buf i (S (S n)))
    with (default 0 (buf !! Z.to_nat i) :: slots_from buf (next_index i) (S n)).
  rewrite IH, Nat.iter_succ_r. done.
Qed.

Lemma unread_length rb : length (unread rb) = unread_count rb.
Proof. apply slots_from_length. Qed.

Lemma unread_count_lt rb : (unread_count rb < Z.to_nat bufferSize)%nat.
Proof.
  unfold unread_count.
  pose proof (ring_dist_range (readIdx rb) (writeIdx rb)). lia.
Qed.

Lemma unread_empty rb : is_empty rb -> unread rb = [].
Proof.
  unfold is_empty, unread, unread_count. intros ->.
  by rewrite ring_dist_same.
Qed.

(** Storing into slot [writeIdx] does not touch the unread window. *)
Lemma unread_store rb v :
  ring_wf rb ->
  unread (mkRing (<[Z.to_nat (writeIdx rb) := v]> (buffer rb)) (writeIdx rb) (readIdx rb))
  = unread rb.
Proof.
  intros (Hlen & Hw & Hr). unfold unread, unread_count. simpl.
  apply slots_from_insert_outside; [done..|].
  pose proof (ring_dist_range (readIdx rb) (writeIdx rb)). lia.
Qed.

(** Publishing appends the slot just written to the unread window. *)
Lemma unread_publish rb :
  ring_wf rb -> next_index (writeIdx rb) <> readIdx rb ->
  unread_count (mkRing (buffer rb) (next_index (writeIdx rb)) (readIdx rb))
    = S (unread_count rb) /\
  unread (mkRing (buffer rb) (next_index (writeIdx rb)) (readIdx rb))
    = unread rb ++ [default 0 (buffer rb !! Z.to_nat (writeIdx rb))].
Proof.
  intros (Hlen & Hw & Hr) Hne.
  assert (Hc : unread_count (mkRing (buffer rb) (next_index (writeIdx rb)) (readIdx rb))
               = S (unread_count rb)).
  { unfold unread_count. simpl. rewrite ring_dist_next_r by done.
    pose proof (ring_dist_range (readIdx rb) (writeIdx rb)). lia. }
  split; [done|]. unfold unread. rewrite Hc. simpl buffer. simpl readIdx.
  rewrite slots_from_snoc.
  rewrite (iter_next_index (readIdx rb) (writeIdx rb)); [done..|].
  unfold unread_count.
  pose proof (ring_dist_range (readIdx rb) (writeIdx rb)). lia.
Qed.

(** Advancing [readIdx] drops the oldest unread value. *)
Lemma unread_advance rb :
  ring_wf rb -> readIdx rb <> writeIdx rb ->
  unread_count rb
    = S (unread_count (mkRing (buffer rb) (writeIdx rb) (next_index (readIdx rb)))) /\
  unread rb
    = default 0 (buffer rb !! Z.to_nat (readIdx rb))
      :: unread (mkRing (buffer rb) (writeIdx rb) (next_index (readIdx rb))).
Proof.
  intros (Hlen & Hw & Hr) Hne.
  assert (Hc : unread_count rb
     = S (unread_count (mkRing (buffer rb) (writeIdx rb) (next_index (readIdx rb))))).
  { unfold unread_count. simpl. rewrite ring_dist_next_l by done.
    destruct (ring_dist_cases (readIdx rb) (writeIdx rb) Hr Hw) as [[? Hd]|[? Hd]]; lia. }
  split; [done|]. unfold unread at 1. rewrite Hc. done.
Qed.

Lemma unread_count_full rb :
  ring_wf rb -> is_full rb -> unread_count rb = Z.to_nat (bufferSize - 1).
Proof.
  intros (Hlen & Hw & Hr) Hf. unfold unread_count.
  by rewrite ring_dist_full.
Qed.

(** ** The FIFO invariant (POSIX backend) *)

Lemma fifo_inv_init rb vs :
  ring_wf rb -> is_empty rb -> fifo_inv vs (init_system rb vs).
Proof.
  intros Hwf He. split; simpl; try done.
  - by rewrite (unread_empty rb He).
  - unfold unread_count. rewrite He, ring_dist_same. done.
Qed.

Lemma fifo_inv_producer_step vs s s' :
  fifo_inv vs s -> producer_step posix s = SysOk s' -> fifo_inv vs s'.
Proof.
  destruct s as [rb [pf todo prets] [cf crets]].
  intros [Hwf Hp Hc Hh Ho Hr Hn]; simpl in *.
  unfold producer_step; simpl.
  destruct pf as [[v|v w n|v w n|n]|]; simpl.
  - (* load writeIdx *)
    intros [= <-]. split; simpl; try done.
  - (* fullness test *)
    unfold producer_inv in Hp; simpl in Hp. destruct Hp as [-> ->].
    case_decide; intros [= <-]; split; simpl; try done.
  - (* store into the slot *)
    unfold producer_inv in Hp; simpl in Hp. destruct Hp as (-> & -> & Hnf).
    destruct Hwf as (Hlen & Hw & Hrd).
    unfold slot_store. rewrite decide_True by done.
    intros [= <-]. split; simpl.
    + unfold ring_wf; simpl. by rewrite length_insert.
    + done.
    + unfold consumer_inv in *; simpl in *.
      destruct cf as [[|r|r|r x]|]; try done.
      destruct Hc as (-> & Hne & Hx). split_and!; try done.
      rewrite list_lookup_insert_ne by lia. done.
    + rewrite unread_store by done. unfold pending in *; simpl in *.
      rewrite list_lookup_insert_eq by lia. done.
    + done.
    + done.
    + unfold unread_count in *. done.
  - (* publish *)
    unfold producer_inv in Hp; simpl in Hp. destruct Hp as (-> & Hnf).
    intros [= <-].
    destruct (unread_publish rb Hwf Hnf) as [Hcnt Hun].
    destruct Hwf as (Hlen & Hw & Hrd).
    split; simpl.
    + unfold ring_wf; simpl. split; [done|]. split; [apply next_index_range|done].
    + done.
    + unfold consumer_inv in *; simpl in *.
      destruct cf as [[|r|r|r x]|]; try done.
      * destruct Hc as (-> & Hne). split; [done|]. congruence.
      * destruct Hc as (-> & Hne & Hx). split_and!; (done || congruence).
    + rewrite Hun. unfold pending in *; simpl in *.
      rewrite <- Hh. by rewrite <- !app_assoc.
    + done.
    + apply Forall_app. split; [done|]. by constructor.
    + rewrite Hcnt, length_app. simpl. lia.
  - (* next call *)
    destruct todo as [|v todo']; [done|]. intros [= <-]. split; simpl; try done.
Qed.

Lemma fifo_inv_consumer_step vs s s' :
  fifo_inv vs s -> consumer_step s = SysOk s' -> fifo_inv vs s'.
Proof.
  destruct s as [rb [pf todo prets] [cf crets]].
  intros [Hwf Hp Hc Hh Ho Hr Hn]; simpl in *.
  unfold consumer_step; simpl.
  destruct cf as [[|r|r|r x]|]; simpl.
  - (* load readIdx *)
    intros [= <-]. split; simpl; try done.
  - (* emptiness test *)
    unfold consumer_inv in Hc; simpl in Hc. subst r.
    case_decide; intros [= <-]; split; simpl; try done.
  - (* load the slot *)
    unfold consumer_inv in Hc; simpl in Hc. destruct Hc as (-> & Hne).
    destruct (slot_load (buffer rb) (readIdx rb)) as [x|] eqn:Hx; [|done].
    intros [= <-]. split; simpl; try done.
    unfold consumer_inv; simpl. split_and!; try done.
    unfold slot_load in Hx. by case_decide.
  - (* advance readIdx *)
    unfold consumer_inv in Hc; simpl in Hc. destruct Hc as (-> & Hne & Hx).
    intros [= <-].
    destruct (unread_advance rb Hwf Hne) as [Hcnt Hun].
    destruct Hwf as (Hlen & Hw & Hrd).
    split; simpl.
    + unfold ring_wf; simpl. split; [done|]. split; [done|apply next_index_range].
    + unfold producer_inv in *; simpl in *.
      destruct pf as [[v|v w n|v w n|n]|]; try done.
      * destruct Hp as (-> & -> & Hnf). split_and!; try done.
        intros Heq. apply next_index_inj in Heq; [congruence|done..].
      * destruct Hp as (-> & Hnf). split_and!; try done.
        intros Heq. apply next_index_inj in Heq; [congruence|done..].
    + done.
    + rewrite Hun, Hx in Hh. simpl in Hh.
      rewrite fmap_app. simpl. rewrite <- app_assoc. simpl.
      unfold pending in *; simpl in *. done.
    + apply Forall_app. split; [done|]. by constructor.
    + done.
    + rewrite length_app. simpl. lia.
  - (* next call *)
    intros [= <-]. split; simpl; try done.
Qed.

Lemma fifo_inv_step vs s s' :
  fifo_inv vs s -> step posix s s' -> fifo_inv vs s'.
Proof.
  intros Hinv [[|] Hstep]; simpl in Hstep.
  - by eapply fifo_inv_producer_step.
  - by eapply fifo_inv_consumer_step.
Qed.

Lemma fifo_inv_reachable vs s0 s :
  fifo_inv vs s0 -> reachable posix s0 s -> fifo_inv vs s.
Proof.
  intros Hinv Hreach. induction Hreach as [|s1 s2 s3 Hstep _ IH]; [done|].
  apply IH. by eapply fifo_inv_step.
Qed.

(** Under the invariant no step panics: every scheduled goroutine either
    moves or, for the producer, has finished its list. *)
Lemma fifo_inv_no_panic vs s t :
  fifo_inv vs s -> sys_step posix t s <> SysPanic.
Proof.
  destruct s as [rb [pf todo prets] [cf crets]].
  intros [Hwf Hp Hc Hh Ho Hr Hn]; simpl in *.
  destruct Hwf as (Hlen & Hw & Hrd).
  destruct t; simpl.
  - unfold producer_step; simpl.
    destruct pf as [[v|v w n|v w n|n]|]; simpl; try done.
    + by case_decide.
    + unfold producer_inv in Hp; simpl in Hp. destruct Hp as (-> & -> & Hnf).
      unfold slot_store. by rewrite decide_True.
    + by destruct todo.
  - unfold consumer_step; simpl.
    destruct cf as [[|r|r|r x]|]; simpl; try done.
    + by case_decide.
    + unfold consumer_inv in Hc; simpl in Hc. destruct Hc as (-> & Hne).
      unfold slot_load. rewrite decide_True by done.
      destruct (lookup_lt_is_Some_2 (buffer rb) (Z.to_nat (readIdx rb))) as [x ->];
        [lia|done].
Qed.

(** ** Indices stay in range (both backends) *)

Lemma range_inv_init rb vs : ring_wf rb -> range_inv (init_system rb vs).
Proof. intros Hwf. by split_and!. Qed.

Lemma Write_step_in_range be rb fr :
  ring_wf rb -> write_frame_in_range fr ->
  match Write_step be rb fr with
  | Running rb' fr' _ =>
      ring_wf rb' /\ write_frame_in_range fr' /\ readIdx rb' = readIdx rb
  | Returned rb' b => ring_wf rb' /\ b = true /\ readIdx rb' = readIdx rb
  | Panicked => False
  end.
Proof.
  intros (Hlen & Hw & Hr) Hfr.
  destruct be, fr as [v|v w n|v w n|n]; simpl in *;
    repeat case_decide; unfold slot_store; repeat case_decide;
    unfold ring_wf; simpl; rewrite ?length_insert;
    try (pose proof (next_index_range (writeIdx rb)));
    try (split_and!; (done || lia)); lia.
Qed.

Lemma Read_step_in_range rb fr :
  ring_wf rb -> read_frame_in_range fr ->
  match Read_step rb fr with
  | Running rb' fr' _ => rb' = rb /\ read_frame_in_range fr'
  | Returned rb' r =>
      ring_wf rb' /\ r.2 = true /\
      writeIdx rb' = writeIdx rb /\ buffer rb' = buffer rb
  | Panicked => False
  end.
Proof.
  intros (Hlen & Hw & Hr) Hfr.
  destruct fr as [|r|r|r x]; simpl in *.
  - done.
  - by case_decide.
  - unfold slot_load. rewrite decide_True by done.
    destruct (lookup_lt_is_Some_2 (buffer rb) (Z.to_nat r)) as [x ->]; [lia|done].
  - unfold ring_wf; simpl. pose proof (next_index_range r). split_and!; (done || lia).
Qed.

Lemma range_inv_step be s s' : range_inv s -> step be s s' -> range_inv s'.
Proof.
  destruct s as [rb [pf todo prets] [cf crets]].
  intros (Hwf & Hp & Hc & Hpr & Hcr) [t Hstep]; simpl in *.
  destruct t; simpl in Hstep.
  - unfold producer_step in Hstep; simpl in Hstep.
    destruct pf as [fr|]; simpl in *.
    + pose proof (Write_step_in_range be rb fr Hwf Hp) as Hs.
      destruct (Write_step be rb fr) as [rb' fr' ev|rb' b|]; [| |done].
      * injection Hstep as <-. destruct Hs as (? & ? & ?). by split_and!.
      * injection Hstep as <-. destruct Hs as (? & -> & ?).
        split_and!; simpl; try done. apply Forall_app. split; [done|by constructor].
    + destruct todo as [|v todo']; [done|]. injection Hstep as <-. by split_and!.
  - unfold consumer_step in Hstep; simpl in Hstep.
    destruct cf as [fr|]; simpl in *.
    + pose proof (Read_step_in_range rb fr Hwf Hc) as Hs.
      destruct (Read_step rb fr) as [rb' fr' ev|rb' r|]; [| |done].
      * injection Hstep as <-. destruct Hs as (-> & ?). by split_and!.
      * injection Hstep as <-. destruct Hs as (? & ? & ? & ?).
        split_and!; simpl; try done.
        apply Forall_app. split; [done|by constructor].
    + injection Hstep as <-. by split_and!.
Qed.

Lemma range_inv_reachable be s0 s :
  range_inv s0 -> reachable be s0 s -> range_inv s.
Proof.
  intros Hinv Hreach. induction Hreach as [|s1 s2 s3 Hstep _ IH]; [done|].
  apply IH. by eapply range_inv_step.
Qed.

Lemma range_inv_no_panic be s t : range_inv s -> sys_step be t s <> SysPanic.
Proof.
  destruct s as [rb [pf todo prets] [cf crets]].
  intros (Hwf & Hp & Hc & Hpr & Hcr); simpl in *.
  destruct t; simpl.
  - unfold producer_step; simpl. destruct pf as [fr|]; simpl in *.
    + pose proof (Write_step_in_range be rb fr Hwf Hp) as Hs.
      by destruct (Write_step be rb fr).
    + by destruct todo.
  - unfold consumer_step; simpl. destruct cf as [fr|]; simpl in *; [|done].
    pose proof (Read_step_in_range rb fr Hwf Hc) as Hs.
    by destruct (Read_step rb fr).
Qed.

(** ** Whole calls run alone *)

Lemma Write_posix_returns rb v fuel :
  ring_wf rb -> ~ is_full rb -> (call_steps <= fuel)%nat ->
  Write posix fuel rb v = Done (written rb v) true [].
Proof.
  intros (Hlen & Hw & Hr) Hnf Hfuel. unfold call_steps in Hfuel.
  do 4 (destruct fuel as [|fuel]; [lia|]).
  unfold Write, is_full in *. simpl.
  rewrite decide_False by done. simpl.
  unfold slot_store. rewrite decide_True by done. done.
Qed.

Lemma Write_posix_spins rb v w fuel waits :
  next_index w = readIdx rb ->
  exists waits',
    run_call (Write_step posix) fuel rb (W_check v w (next_index w)) waits
    = Spinning rb (W_check v w (next_index w)) waits'.
Proof.
  intros Hf. revert waits. induction fuel as [|fuel IH]; intros waits; simpl.
  - by eexists.
  - rewrite decide_True by done. apply IH.
Qed.

Lemma Write_posix_blocks rb v : is_full rb -> Write_blocks posix rb v.
Proof.
  intros Hf [|fuel]; unfold Write.
  - by do 2 eexists.
  - change (run_call (Write_step posix) (S fuel) rb (W_entry v) [])
      with (run_call (Write_step posix) fuel rb
              (W_check v (writeIdx rb) (next_index (writeIdx rb))) []).
    destruct (Write_posix_spins rb v (writeIdx rb) fuel [] Hf) as [waits' ->].
    by do 2 eexists.
Qed.

Lemma Write_windows_returns rb v fuel :
  ring_wf rb -> (call_steps <= fuel)%nat ->
  Write windows fuel rb v
  = Done (written rb v) true
      (if decide (next_index (writeIdx rb) = readIdx rb)
       then [SpinWait (5 * Microsecond)] else []).
Proof.
  intros (Hlen & Hw & Hr) Hfuel. unfold call_steps in Hfuel.
  do 4 (destruct fuel as [|fuel]; [lia|]).
  unfold Write. simpl.
  case_decide; simpl; unfold slot_store; rewrite decide_True by done; done.
Qed.

Lemma Read_returns rb fuel :
  ring_wf rb -> ~ is_empty rb -> (call_steps <= fuel)%nat ->
  Read fuel rb = Done (advanced rb) (front rb, true) [].
Proof.
  intros (Hlen & Hw & Hr) Hne Hfuel. unfold call_steps in Hfuel.
  do 4 (destruct fuel as [|fuel]; [lia|]).
  unfold Read, is_empty, front in *. simpl.
  rewrite decide_False by congruence. simpl.
  unfold slot_load. rewrite decide_True by done.
  destruct (lookup_lt_is_Some_2 (buffer rb) (Z.to_nat (readIdx rb))) as [x ->];
    [lia|done].
Qed.

Lemma Read_spins rb fuel waits :
  readIdx rb = writeIdx rb ->
  exists waits',
    run_call Read_step fuel rb (R_check (readIdx rb)) waits
    = Spinning rb (R_check (readIdx rb)) waits'.
Proof.
  intros He. revert waits. induction fuel as [|fuel IH]; intros waits; simpl.
  - by eexists.
  - rewrite decide_True by done. apply IH.
Qed.

Lemma Read_blocks_empty rb : is_empty rb -> Read_blocks rb.
Proof.
  intros He [|fuel]; unfold Read.
  - by do 2 eexists.
  - change (run_call Read_step (S fuel) rb R_entry [])
      with (run_call Read_step fuel rb (R_check (readIdx rb)) []).
    destruct (Read_spins rb fuel [] (eq_sym He)) as [waits' ->].
    by do 2 eexists.
Qed.

Lemma written_wf rb v : ring_wf rb -> ring_wf (written rb v).
Proof.
  intros (Hlen & Hw & Hr). unfold ring_wf, written; simpl.
  rewrite length_insert. pose proof (next_index_range (writeIdx rb)). done.
Qed.

Lemma advanced_wf rb : ring_wf rb -> ring_wf (advanced rb).
Proof.
  intros (Hlen & Hw & Hr). unfold ring_wf, advanced; simpl.
  pose proof (next_index_range (readIdx rb)). done.
Qed.

(** The unread window after a completed [Write] on a ring that was not full. *)
Lemma unread_written rb v :
  ring_wf rb -> ~ is_full rb ->
  unread (written rb v) = unread rb ++ [v] /\
  unread_count (written rb v) = S (unread_count rb).
Proof.
  intros Hwf Hnf.
  pose (rb1 := mkRing (<[Z.to_nat (writeIdx rb) := v]> (buffer rb)) (writeIdx rb) (readIdx rb)).
  assert (Hwf1 : ring_wf rb1).
  { destruct Hwf as (Hlen & Hw & Hr). unfold ring_wf, rb1; simpl.
    by rewrite length_insert. }
  destruct (unread_publish rb1 Hwf1 Hnf) as [Hc Hu].
  change (mkRing (buffer rb1) (next_index (writeIdx rb1)) (readIdx rb1))
    with (written rb v) in Hc, Hu.
  rewrite Hu, Hc. unfold rb1 at 1 3. rewrite unread_store by done. simpl.
  destruct Hwf as (Hlen & Hw & Hr).
  rewrite list_lookup_insert_eq by lia. done.
Qed.

(** The unread window before a completed [Read] on a ring that was not empty. *)
Lemma unread_advanced rb :
  ring_wf rb -> ~ is_empty rb ->
  unread rb = front rb :: unread (advanced rb) /\
  unread_count rb = S (unread_count (advanced rb)).
Proof.
  intros Hwf Hne. unfold is_empty in Hne.
  destruct (unread_advance rb Hwf) as [Hc Hu]; [congruence|]. done.
Qed.

Lemma next_index_small i :
  0 <= i < bufferSize -> next_index i = (i + 1) mod bufferSize.
Proof.
  intros Hi. unfold next_index, wrap64.
  assert (Hb : bufferSize < 2 ^ 64) by reflexivity.
  by rewrite (Z.mod_small (i + 1)) by lia.
Qed.

(** A [Write] that returned did so with [true], on the ring [written]. *)
Lemma Write_done be fuel rb v rb' ret waits :
  ring_wf rb -> Write be fuel rb v = Done rb' ret waits ->
  rb' = written rb v /\ ret = true.
Proof.
  intros Hwf HD. destruct (decide (call_steps <= fuel)%nat) as [Hf|Hf].
  - destruct be.
    + destruct (decide (is_full rb)) as [Hfull|Hnf].
      * destruct (Write_posix_blocks rb v Hfull fuel) as (fr & ws & Hs). congruence.
      * rewrite Write_posix_returns in HD by done. by injection HD as <- <- _.
    + rewrite Write_windows_returns in HD by done. by injection HD as <- <- _.
  - destruct Hwf as (Hlen & Hw & Hr). unfold call_steps in Hf.
    destruct fuel as [|[|[|[|fuel]]]]; [| | | |lia]; clear Hf;
      unfold Write in HD; destruct be; simpl in HD;
      repeat (case_decide; simpl in HD); try discriminate;
      unfold slot_store in HD; rewrite decide_True in HD by done; discriminate.
Qed.

(** A [Read] that returned did so with the front value and [true], on the
    ring [advanced]. *)
Lemma Read_done fuel rb rb' r waits :
  ring_wf rb -> Read fuel rb = Done rb' r waits ->
  rb' = advanced rb /\ r = (front rb, true) /\ ~ is_empty rb.
Proof.
  intros Hwf HD. destruct (decide (is_empty rb)) as [He|Hne].
  { destruct (Read_blocks_empty rb He fuel) as (fr & ws & Hs). congruence. }
  destruct (decide (call_steps <= fuel)%nat) as [Hf|Hf].
  - rewrite Read_returns in HD by done. by injection HD as <- <- _.
  - destruct Hwf as (Hlen & Hw & Hr). unfold call_steps in Hf.
    destruct fuel as [|[|[|[|fuel]]]]; [| | | |lia]; clear Hf;
      unfold Read in HD; simpl in HD;
      repeat (case_decide; simpl in HD); try discriminate.
    unfold slot_load in HD. rewrite decide_True in HD by done.
    destruct (buffer rb !! Z.to_nat (readIdx rb)); discriminate.
Qed.

(** A call never panics on a well-formed ring. *)
Lemma Write_no_panic be fuel rb v : ring_wf rb -> Write be fuel rb v <> Panic.
Proof.
  intros Hwf. destruct (decide (call_steps <= fuel)%nat) as [Hf|Hf].
  - destruct be.
    + destruct (decide (is_full rb)) as [Hfull|Hnf].
      * destruct (Write_posix_blocks rb v Hfull fuel) as (fr & ws & ->). done.
      * by rewrite Write_posix_returns.
    + by rewrite Write_windows_returns.
  - destruct Hwf as (Hlen & Hw & Hr). unfold call_steps in Hf.
    destruct fuel as [|[|[|[|fuel]]]]; [| | | |lia]; clear Hf;
      unfold Write; destruct be; simpl;
      repeat (case_decide; simpl); try discriminate;
      unfold slot_store; rewrite decide_True by done; discriminate.
Qed.

Lemma Read_no_panic fuel rb : ring_wf rb -> Read fuel rb <> Panic.
Proof.
  intros Hwf. destruct (decide (is_empty rb)) as [He|Hne].
  { destruct (Read_blocks_empty rb He fuel) as (fr & ws & ->). done. }
  destruct (decide (call_steps <= fuel)%nat) as [Hf|Hf].
  - by rewrite Read_returns.
  - destruct Hwf as (Hlen & Hw & Hr). unfold call_steps in Hf.
    destruct fuel as [|[|[|[|fuel]]]]; [| | | |lia]; clear Hf;
      unfold Read; simpl;
      repeat (case_decide; simpl); try discriminate.
    unfold slot_load. rewrite decide_True by done.
    destruct (lookup_lt_is_Some_2 (buffer rb) (Z.to_nat (readIdx rb))) as [x ->];
      [lia|done].
Qed.

(** ** The cursors stay inside the ring *)

(** C4.  In both backends, on a ring whose cursors are below the capacity:
    a [Write] that returns has stored [(writeIdx + 1) mod bufferSize] into
    [writeIdx] and left [readIdx] alone, a [Read] that returns has stored
    [(readIdx + 1) mod bufferSize] into [readIdx] and left [writeIdx] alone,
    and in every state any interleaving of a producer and a consumer reaches,
    both cursors are in [0, bufferSize). *)
Theorem indices_stay_in_range (be : Backend) (rb : SharedAtomicRingBuffer) :
  ring_wf rb ->
  (forall v fuel rb' ret waits,
     Write be fuel rb v = Done rb' ret waits ->
     writeIdx rb' = (writeIdx rb + 1) mod bufferSize /\
     readIdx rb' = readIdx rb /\ ring_wf rb') /\
  (forall fuel rb' r waits,
     Read fuel rb = Done rb' r waits ->
     readIdx rb' = (readIdx rb + 1) mod bufferSize /\
     writeIdx rb' = writeIdx rb /\ ring_wf rb') /\
  (forall vs s,
     reachable be (init_system rb vs) s ->
     0 <= writeIdx (shm s) < bufferSize /\ 0 <= readIdx (shm s) < bufferSize).
Proof.
  intros Hwf. split_and!.
  - intros v fuel rb' ret waits HD.
    destruct (Write_done _ _ _ _ _ _ _ Hwf HD) as [-> ->].
    split_and!; [|done|by apply written_wf].
    simpl. apply next_index_small, Hwf.
  - intros fuel rb' r waits HD.
    destruct (Read_done _ _ _ _ _ Hwf HD) as (-> & -> & _).
    split_and!; [|done|by apply advanced_wf].
    simpl. apply next_index_small, Hwf.
  - intros vs s Hreach.
    pose proof (range_inv_reachable be _ _ (range_inv_init rb vs Hwf) Hreach) as Hinv.
    destruct Hinv as ((_ & Hw & Hr) & _). done.
Qed.

Lemma indices_stay_in_range_witness :
  ring_wf (written zero_ring 7) /\
  (forall v fuel rb' ret waits,
     Write windows fuel (written zero_ring 7) v = Done rb' ret waits ->
     writeIdx rb' = (writeIdx (written zero_ring 7) + 1) mod bufferSize /\
     readIdx rb' = readIdx (written zero_ring 7) /\ ring_wf rb') /\
  (forall fuel rb' r waits,
     Read fuel (written zero_ring 7) = Done rb' r waits ->
     readIdx rb' = (readIdx (written zero_ring 7) + 1) mod bufferSize /\
     writeIdx rb' = writeIdx (written zero_ring 7) /\ ring_wf rb') /\
  (forall vs s,
     reachable windows (init_system (written zero_ring 7) vs) s ->
     0 <= writeIdx (shm s) < bufferSize /\ 0 <= readIdx (shm s) < bufferSize).
Proof.
  assert (Hwf : ring_wf (written zero_ring 7))
    by ring_wf_by_evaluation.
  split; [exact Hwf|].
  exact (indices_stay_in_range windows (written zero_ring 7) Hwf).
Defined.

(** ** Frame conditions *)

(** C10.  In both backends a [Write] that returns has changed slot
    [writeIdx] and the cursor [writeIdx] only: [readIdx], the number of
    slots and every other slot are as before.  A [Read] that returns has
    changed [readIdx] only.  The same holds step by step: no step of the
    producer changes [readIdx] or the consumer's locals, no step of the
    consumer changes [writeIdx], a slot or the producer's locals. *)
Theorem frame_conditions (be : Backend) (rb : SharedAtomicRingBuffer) :
  ring_wf rb ->
  (forall v fuel rb' ret waits,
     Write be fuel rb v = Done rb' ret waits ->
     readIdx rb' = readIdx rb /\
     length (buffer rb') = length (buffer rb) /\
     buffer rb' !! Z.to_nat (writeIdx rb) = Some v /\
     forall i, i <> Z.to_nat (writeIdx rb) -> buffer rb' !! i = buffer rb !! i) /\
  (forall fuel rb' r waits,
     Read fuel rb = Done rb' r waits ->
     writeIdx rb' = writeIdx rb /\ buffer rb' = buffer rb) /\
  (forall s s',
     shm s = rb -> producer_step be s = SysOk s' ->
     readIdx (shm s') = readIdx rb /\ sys_cons s' = sys_cons s) /\
  (forall s s',
     shm s = rb -> consumer_step s = SysOk s' ->
     writeIdx (shm s') = writeIdx rb /\ buffer (shm s') = buffer rb /\
     sys_prod s' = sys_prod s).
Proof.
  intros Hwf. split_and!.
  - intros v fuel rb' ret waits HD.
    destruct (Write_done _ _ _ _ _ _ _ Hwf HD) as [-> ->].
    destruct Hwf as (Hlen & Hw & Hr). unfold written; simpl. split_and!.
    + done.
    + apply length_insert.
    + apply list_lookup_insert_eq. lia.
    + intros i Hi. by apply list_lookup_insert_ne.
  - intros fuel rb' r waits HD.
    by destruct (Read_done _ _ _ _ _ Hwf HD) as (-> & -> & _).
  - intros [rb0 [pf todo prets] c] s' Hrb; simpl in Hrb; subst rb0.
    unfold producer_step; simpl.
    destruct pf as [fr|]; simpl.
    + destruct be, fr as [v|v w n|v w n|n]; simpl;
        repeat case_decide; unfold slot_store; repeat case_decide;
        try discriminate; by intros [= <-].
    + destruct todo; [done|]. by intros [= <-].
  - intros [rb0 p [cf crets]] s' Hrb; simpl in Hrb; subst rb0.
    unfold consumer_step; simpl.
    destruct cf as [[|r|r|r x]|]; simpl;
      repeat case_decide; try destruct (slot_load _ _);
      try discriminate; by intros [= <-].
Qed.

Lemma frame_conditions_witness :
  ring_wf (written zero_ring 7) /\
  (forall v fuel rb' ret waits,
     Write windows fuel (written zero_ring 7) v = Done rb' ret waits ->
     readIdx rb' = readIdx (written zero_ring 7) /\
     length (buffer rb') = length (buffer (written zero_ring 7)) /\
     buffer rb' !! Z.to_nat (writeIdx (written zero_ring 7)) = Some v /\
     forall i, i <> Z.to_nat (writeIdx (written zero_ring 7)) ->
               buffer rb' !! i = buffer (written zero_ring 7) !! i) /\
  (forall fuel rb' r waits,
     Read fuel (written zero_ring 7) = Done rb' r waits ->
     writeIdx rb' = writeIdx (written zero_ring 7) /\
     buffer rb' = buffer (written zero_ring 7)) /\
  (forall s s',
     shm s = written zero_ring 7 -> producer_step windows s = SysOk s' ->
     readIdx (shm s') = readIdx (written zero_ring 7) /\ sys_cons s' = sys_cons s) /\
  (forall s s',
     shm s = written zero_ring 7 -> consumer_step s = SysOk s' ->
     writeIdx (shm s') = writeIdx (written zero_ring 7) /\
     buffer (shm s') = buffer (written zero_ring 7) /\
     sys_prod s' = sys_prod s).
Proof.
  assert (Hwf : ring_wf (written zero_ring 7))
    by ring_wf_by_evaluation.
  split; [exact Hwf|].
  exact (frame_conditions windows (written zero_ring 7) Hwf).
Defined.

(** ** No error channel *)

(** The only value a [Write] step returns is [true], and the only flag a
    [Read] step returns is [true], whatever the ring holds. *)
Lemma run_call_Write_true be fuel rb fr waits rb' ret waits' :
  run_call (Write_step be) fuel rb fr waits = Done rb' ret waits' -> ret = true.
Proof.
  revert rb fr waits. induction fuel as [|fuel IH]; intros rb fr waits; simpl; [done|].
  destruct (Write_step be rb fr) as [rb1 fr1 ev|rb1 b|] eqn:Hs; [apply IH| |done].
  intros [= _ <- _].
  destruct be, fr; simpl in Hs; repeat case_decide;
    try destruct (slot_store _ _ _); congruence.
Qed.

Lemma run_call_Read_true fuel rb fr waits rb' r waits' :
  run_call Read_step fuel rb fr waits = Done rb' r waits' -> r.2 = true.
Proof.
  revert rb fr waits. induction fuel as [|fuel IH]; intros rb fr waits; simpl; [done|].
  destruct (Read_step rb fr) as [rb1 fr1 ev|rb1 x|] eqn:Hs; [apply IH| |done].
  intros [= _ <- _].
  destruct fr; simpl in Hs; repeat case_decide;
    try destruct (slot_load _ _); try discriminate.
  by injection Hs as _ <-.
Qed.

(** C7.  In both backends, on any ring at all, a [Write] that returns
    returns [true] and a [Read] that returns returns a value paired with
    [true]: there is no other result.  On a well-formed ring, moreover:
    whatever the fuel, a [Write] run alone has returned [true] or is still
    running (never a panic), and it either returns once it is given four
    steps or blocks for ever; the same for a [Read]; and in every state an
    interleaving reaches, every result logged by the producer is [true],
    every result logged by the consumer carries [true], and no step
    panics. *)
Theorem no_error_channel (be : Backend) (rb : SharedAtomicRingBuffer) :
  (forall v fuel rb' ret waits,
     Write be fuel rb v = Done rb' ret waits -> ret = true) /\
  (forall fuel rb' r waits,
     Read fuel rb = Done rb' r waits -> r.2 = true) /\
  (ring_wf rb ->
   (forall v fuel, Write be fuel rb v <> Panic) /\
   (forall v,
      (exists waits, forall fuel, (call_steps <= fuel)%nat ->
         Write be fuel rb v = Done (written rb v) true waits) \/
      Write_blocks be rb v) /\
   (forall fuel, Read fuel rb <> Panic) /\
   ((forall fuel, (call_steps <= fuel)%nat ->
       Read fuel rb = Done (advanced rb) (front rb, true) []) \/
    Read_blocks rb) /\
   (forall vs s,
      reachable be (init_system rb vs) s ->
      Forall (fun b => b = true) (p_rets (sys_prod s)) /\
      Forall (fun r => r.2 = true) (c_rets (sys_cons s)) /\
      forall t, sys_step be t s <> SysPanic)).
Proof.
  split_and!.
  - intros v fuel rb' ret waits. apply run_call_Write_true.
  - intros fuel rb' r waits. apply run_call_Read_true.
  - intros Hwf. split_and!.
    + intros v fuel. by apply Write_no_panic.
    + intros v. destruct be.
      * destruct (decide (is_full rb)) as [Hfull|Hnf].
        -- right. by apply Write_posix_blocks.
        -- left. exists []. intros fuel Hf. by apply Write_posix_returns.
      * left. eexists. intros fuel Hf. by apply Write_windows_returns.
    + intros fuel. by apply Read_no_panic.
    + destruct (decide (is_empty rb)) as [He|Hne].
      * right. by apply Read_blocks_empty.
      * left. intros fuel Hf. by apply Read_returns.
    + intros vs s Hreach.
      pose proof (range_inv_reachable be _ _ (range_inv_init rb vs Hwf) Hreach) as Hinv.
      split_and!; [apply Hinv..|].
      intros t. by apply range_inv_no_panic.
Qed.

Lemma no_error_channel_witness :
  ring_wf (written zero_ring 7) /\
  (forall v fuel rb' ret waits,
     Write posix fuel (written zero_ring 7) v = Done rb' ret waits -> ret = true) /\
  (forall fuel rb' r waits,
     Read fuel (written zero_ring 7) = Done rb' r waits -> r.2 = true) /\
  (forall v fuel, Write posix fuel (written zero_ring 7) v <> Panic) /\
  (forall v,
     (exists waits, forall fuel, (call_steps <= fuel)%nat ->
        Write posix fuel (written zero_ring 7) v
        = Done (written (written zero_ring 7) v) true waits) \/
     Write_blocks posix (written zero_ring 7) v) /\
  (forall fuel, Read fuel (written zero_ring 7) <> Panic) /\
  ((forall fuel, (call_steps <= fuel)%nat ->
      Read fuel (written zero_ring 7)
      = Done (advanced (written zero_ring 7)) (front (written zero_ring 7), true) []) \/
   Read_blocks (written zero_ring 7)) /\
  (forall vs s,
     reachable posix (init_system (written zero_ring 7) vs) s ->
     Forall (fun b => b = true) (p_rets (sys_prod s)) /\
     Forall (fun r => r.2 = true) (c_rets (sys_cons s)) /\
     forall t, sys_step posix t s <> SysPanic).
Proof.
  assert (Hwf : ring_wf (written zero_ring 7)) by ring_wf_by_evaluation.
  pose proof (no_error_channel posix (written zero_ring 7)) as (HW & HR & Hrest).
  split_and!; [exact Hwf|exact HW|exact HR|..]; apply (Hrest Hwf).
Defined.

(** ** The capacity boundary (POSIX backend) *)

Lemma is_full_count rb :
  ring_wf rb -> is_full rb <-> unread_count rb = Z.to_nat (bufferSize - 1).
Proof.
  intros Hwf. split; [by apply unread_count_full|].
  destruct Hwf as (Hlen & Hw & Hr). unfold unread_count, is_full. intros Hc.
  pose proof bufferSize_gt_1.
  destruct (next_index_cases _ Hw) as [[? ->]|[? ->]];
    destruct (ring_dist_cases _ _ Hr Hw) as [[? Hd]|[? Hd]]; lia.
Qed.

Lemma write_all_posix vs rb :
  ring_wf rb ->
  (unread_count rb + length vs < Z.to_nat bufferSize)%nat ->
  exists rb',
    write_all posix rb vs = Some rb' /\ ring_wf rb' /\
    unread rb' = unread rb ++ vs /\
    unread_count rb' = (unread_count rb + length vs)%nat /\
    readIdx rb' = readIdx rb.
Proof.
  revert rb. induction vs as [|v vs IH]; intros rb Hwf Hlen.
  - exists rb. simpl. rewrite app_nil_r. split_and!; (done || lia).
  - simpl in Hlen.
    assert (Hnf : ~ is_full rb).
    { rewrite is_full_count by done. lia. }
    destruct (unread_written rb v Hwf Hnf) as [Hu Hc].
    destruct (IH (written rb v)) as (rb' & HW & Hwf' & Hu' & Hc' & Hr').
    { by apply written_wf. }
    { lia. }
    exists rb'. simpl.
    rewrite Write_posix_returns by done.
    split_and!; try done.
    + by rewrite Hu', Hu, <- app_assoc.
    + simpl. lia.
Qed.

(** C5.  On the POSIX backend, starting from an empty ring: [bufferSize - 1]
    writes in a row all return [true] without a single wait; the ring then
    holds exactly those values and is full, so whatever the next value its
    [Write] blocks; one [Read] returns the first value; after it one [Write]
    returns without waiting, and the [Write] after that one blocks again. *)
Theorem capacity_boundary (rb : SharedAtomicRingBuffer) (vs : list Z) :
  ring_wf rb -> is_empty rb -> length vs = Z.to_nat (bufferSize - 1) ->
  exists rb1,
    write_all posix rb vs = Some rb1 /\
    unread rb1 = vs /\
    is_full rb1 /\
    (forall v, Write_blocks posix rb1 v) /\
    (forall fuel, (call_steps <= fuel)%nat ->
       Read fuel rb1 = Done (advanced rb1) (hd 0 vs, true) []) /\
    (forall v fuel, (call_steps <= fuel)%nat ->
       Write posix fuel (advanced rb1) v
       = Done (written (advanced rb1) v) true []) /\
    (forall v v', Write_blocks posix (written (advanced rb1) v) v').
Proof.
  intros Hwf He Hlen. pose proof bufferSize_gt_1 as HB.
  assert (Hc0 : unread_count rb = 0%nat).
  { by rewrite <- unread_length, unread_empty. }
  destruct (write_all_posix vs rb Hwf) as (rb1 & HW & Hwf1 & Hu1 & Hc1 & Hr1).
  { lia. }
  rewrite (unread_empty rb He) in Hu1. simpl in Hu1.
  assert (Hfull : is_full rb1).
  { rewrite is_full_count by done. lia. }
  assert (Hne : ~ is_empty rb1).
  { intros He1. apply unread_empty in He1. rewrite Hu1 in He1.
    rewrite He1 in Hlen. simpl in Hlen. lia. }
  destruct (unread_advanced rb1 Hwf1 Hne) as [Hu2 Hc2].
  assert (Hwf2 : ring_wf (advanced rb1)) by by apply advanced_wf.
  assert (Hnf2 : ~ is_full (advanced rb1)).
  { rewrite is_full_count by done. lia. }
  exists rb1. split_and!; try done.
  - intros v. by apply Write_posix_blocks.
  - intros fuel Hf. rewrite Read_returns by done.
    rewrite <- Hu1, Hu2. done.
  - intros v fuel Hf. by apply Write_posix_returns.
  - intros v v'. apply Write_posix_blocks.
    destruct (unread_written (advanced rb1) v Hwf2 Hnf2) as [_ Hc3].
    rewrite is_full_count by by apply written_wf. lia.
Qed.

Lemma capacity_boundary_witness :
  ring_wf zero_ring /\ is_empty zero_ring /\
  length (main_values 1023) = Z.to_nat (bufferSize - 1) /\
  exists rb1,
    write_all posix zero_ring (main_values 1023) = Some rb1 /\
    unread rb1 = main_values 1023 /\
    is_full rb1 /\
    (forall v, Write_blocks posix rb1 v) /\
    (forall fuel, (call_steps <= fuel)%nat ->
       Read fuel rb1 = Done (advanced rb1) (hd 0 (main_values 1023), true) []) /\
    (forall v fuel, (call_steps <= fuel)%nat ->
       Write posix fuel (advanced rb1) v
       = Done (written (advanced rb1) v) true []) /\
    (forall v v', Write_blocks posix (written (advanced rb1) v) v').
Proof.
  assert (Hwf : ring_wf zero_ring) by ring_wf_by_evaluation.
  assert (He : is_empty zero_ring) by reflexivity.
  assert (Hlen : length (main_values 1023) = Z.to_nat (bufferSize - 1))
    by (vm_compute; reflexivity).
  split_and!; [exact Hwf|exact He|exact Hlen|].
  exact (capacity_boundary zero_ring (main_values 1023) Hwf He Hlen).
Defined.

(** ** FIFO delivery (POSIX backend) *)

(** Running a few scheduled steps symbolically: unfold them and settle each
    test on the cursors, and each bounds check, from the hypotheses. *)
Ltac exec_steps :=
  simpl; unfold producer_step, consumer_step; simpl;
  repeat first
    [ rewrite decide_False by congruence; simpl
    | progress unfold slot_store; rewrite decide_True by done; simpl
    | progress unfold slot_load; rewrite decide_True by done; simpl ].

Lemma run_app be sched1 sched2 s :
  run be (sched1 ++ sched2) s =
  match run be sched1 s with
  | SysOk s' => run be sched2 s'
  | r => r
  end.
Proof.
  revert s. induction sched1 as [|t sched1 IH]; intros s; simpl; [done|].
  destruct (sys_step be t s); [apply IH|done..].
Qed.

Lemma run_reachable be sched s s' :
  run be sched s = SysOk s' -> reachable be s s'.
Proof.
  revert s. induction sched as [|t sched IH]; intros s; simpl.
  - intros [= <-]. apply rtc_refl.
  - destruct (sys_step be t s) as [s1| |] eqn:Hs; [|done..].
    intros Hrun. eapply rtc_l; [by exists t|by apply IH].
Qed.

(** One round on an empty ring: the value goes in and comes out. *)
Lemma run_round rb v todo prets crets :
  ring_wf rb -> is_empty rb ->
  run posix round
    (mkSystem rb (mkProducer None (v :: todo) prets) (mkConsumer None crets))
  = SysOk (mkSystem (advanced (written rb v))
             (mkProducer None todo (prets ++ [true]))
             (mkConsumer None (crets ++ [(v, true)]))).
Proof.
  intros (Hlen & Hw & Hr) He. unfold is_empty in He.
  pose proof (next_index_neq _ Hw) as Hn.
  unfold round, call_steps. simpl. unfold producer_step. simpl.
  rewrite decide_False by congruence. simpl.
  unfold slot_store. rewrite decide_True by done. simpl.
  unfold consumer_step. simpl.
  rewrite decide_False by congruence. simpl.
  unfold slot_load. rewrite decide_True by done.
  rewrite <- He, list_lookup_insert_eq by lia. simpl.
  unfold advanced, written. simpl. by rewrite He.
Qed.

Lemma advanced_written_empty rb v : is_empty rb -> is_empty (advanced (written rb v)).
Proof. unfold is_empty. simpl. by intros ->. Qed.

Lemma run_lockstep vs rb prets crets :
  ring_wf rb -> is_empty rb ->
  exists rb',
    run posix (lockstep (length vs))
      (mkSystem rb (mkProducer None vs prets) (mkConsumer None crets))
    = SysOk (mkSystem rb'
               (mkProducer None [] (prets ++ replicate (length vs) true))
               (mkConsumer None (crets ++ ((fun v => (v, true)) <$> vs)))) /\
    ring_wf rb' /\ is_empty rb'.
Proof.
  revert rb prets crets. induction vs as [|v vs IH]; intros rb prets crets Hwf He.
  - exists rb. simpl. by rewrite !app_nil_r.
  - destruct (IH (advanced (written rb v)) (prets ++ [true]) (crets ++ [(v, true)]))
      as (rb' & Hrun & Hwf' & He').
    { by apply advanced_wf, written_wf. }
    { by apply advanced_written_empty. }
    exists rb'. split; [|done].
    change (lockstep (length (v :: vs))) with (round ++ lockstep (length vs)).
    rewrite run_app, run_round by done.
    rewrite Hrun, <- !app_assoc. done.
Qed.

Lemma consumer_completes vs s :
  fifo_inv vs s -> ~ is_empty (shm s) ->
  exists n s',
    run posix (replicate n consumer) s = SysOk s' /\
    c_rets (sys_cons s') = c_rets (sys_cons s) ++ [(front (shm s), true)].
Proof.
  destruct s as [rb [pf todo prets] [cf crets]].
  intros [Hwf Hp Hc Hh Ho Hr Hn] Hne; simpl in *.
  destruct Hwf as (Hlen & Hw & Hrd). unfold is_empty in Hne.
  destruct (lookup_lt_is_Some_2 (buffer rb) (Z.to_nat (readIdx rb))) as [x Hx];
    [lia|].
  unfold front. rewrite Hx. simpl.
  unfold consumer_inv in Hc; simpl in Hc.
  destruct cf as [[|r|r|r y]|].
  - exists 4%nat. eexists. exec_steps. by rewrite Hx.
  - subst r. exists 3%nat. eexists. exec_steps. by rewrite Hx.
  - destruct Hc as [-> _]. exists 2%nat. eexists. exec_steps. by rewrite Hx.
  - destruct Hc as (-> & _ & Hy). exists 1%nat. eexists. exec_steps.
    split; [done|]. simpl. congruence.
  - exists 5%nat. eexists. exec_steps. by rewrite Hx.
Qed.

Lemma producer_publishes vs s :
  fifo_inv vs s -> is_empty (shm s) -> pending (shm s) (sys_prod s) <> [] ->
  exists n s',
    run posix (replicate n producer) s = SysOk s' /\
    ~ is_empty (shm s') /\ sys_cons s' = sys_cons s.
Proof.
  destruct s as [rb [pf todo prets] c].
  intros [Hwf Hp Hc Hh Ho Hr Hn] He Hpend; simpl in *.
  destruct Hwf as (Hlen & Hw & Hrd). unfold is_empty in *. simpl in *.
  pose proof (next_index_neq _ Hw) as Hnext.
  unfold producer_inv in Hp; simpl in Hp. unfold pending in Hpend; simpl in Hpend.
  destruct pf as [[v|v w n|v w n|n]|].
  - exists 4%nat. eexists. exec_steps.
    split_and!; [done| |done]. simpl. congruence.
  - destruct Hp as [-> ->]. exists 3%nat. eexists. exec_steps.
    split_and!; [done| |done]. simpl. congruence.
  - destruct Hp as (-> & -> & _). exists 2%nat. eexists. exec_steps.
    split_and!; [done| |done]. simpl. congruence.
  - destruct Hp as (-> & _). exists 1%nat. eexists. exec_steps.
    split_and!; [done| |done]. simpl. congruence.
  - destruct todo as [|v todo]; [done|].
    exists 5%nat. eexists. exec_steps.
    split_and!; [done| |done]. simpl. congruence.
Qed.

(** Under the invariant, once [length vs] reads have returned they returned
    [vs]. *)
Lemma fifo_inv_all_read vs s :
  fifo_inv vs s ->
  (length (c_rets (sys_cons s)) <= length vs)%nat /\
  (length (c_rets (sys_cons s)) = length vs ->
   c_rets (sys_cons s) = (fun v => (v, true)) <$> vs).
Proof.
  intros [Hwf Hp Hc Hh Ho Hr Hn].
  apply (f_equal length) in Hh as Hl. rewrite !length_app, length_fmap in Hl.
  split; [lia|]. intros Hlen.
  assert (Hv : (c_rets (sys_cons s)).*1 = vs).
  { destruct (unread (shm s) ++ pending (shm s) (sys_prod s)) as [|x l] eqn:Hrest.
    - by rewrite app_nil_r in Hh.
    - rewrite <- length_app, Hrest in Hl. simpl in Hl. lia. }
  rewrite <- Hv. clear -Ho.
  induction Ho as [|[x b] l Hb _ IH]; [done|].
  rewrite !fmap_cons. simpl in Hb. subst b. simpl. by f_equal.
Qed.

(** Whatever happened so far, one more [Read] can be brought to return. *)
Lemma one_more_read vs s :
  fifo_inv vs s ->
  (length (c_rets (sys_cons s)) < length vs)%nat ->
  exists sched s',
    run posix sched s = SysOk s' /\
    length (c_rets (sys_cons s')) = S (length (c_rets (sys_cons s))).
Proof.
  intros Hinv Hlt. destruct (decide (is_empty (shm s))) as [He|Hne].
  - assert (Hpend : pending (shm s) (sys_prod s) <> []).
    { intros Hnil. destruct Hinv as [_ _ _ Hh _ _ _].
      rewrite (unread_empty _ He), Hnil in Hh.
      apply (f_equal length) in Hh. rewrite !length_app, length_fmap in Hh.
      simpl in Hh. lia. }
    destruct (producer_publishes vs s Hinv He Hpend) as (n1 & s1 & Hrun1 & Hne1 & Hc1).
    assert (Hinv1 : fifo_inv vs s1).
    { eapply fifo_inv_reachable; [exact Hinv|]. by eapply run_reachable. }
    destruct (consumer_completes vs s1 Hinv1 Hne1) as (n2 & s2 & Hrun2 & Hc2).
    exists (replicate n1 producer ++ replicate n2 consumer), s2.
    rewrite run_app, Hrun1. split; [done|].
    rewrite Hc2, Hc1, length_app. simpl. lia.
  - destruct (consumer_completes vs s Hinv Hne) as (n & s' & Hrun & Hc).
    exists (replicate n consumer), s'. split; [done|].
    rewrite Hc, length_app. simpl. lia.
Qed.

(** Whatever happened so far, the run can be continued until the consumer
    has been handed every value. *)
Lemma fifo_completion vs s :
  fifo_inv vs s ->
  exists sched s',
    run posix sched s = SysOk s' /\
    c_rets (sys_cons s') = (fun v => (v, true)) <$> vs.
Proof.
  intros Hinv.
  remember (length vs - length (c_rets (sys_cons s)))%nat as k eqn:Hk.
  revert s Hinv Hk. induction k as [|k IH]; intros s Hinv Hk.
  - exists [], s. split; [done|].
    destruct (fifo_inv_all_read vs s Hinv) as [Hle Hall]. apply Hall. lia.
  - destruct (one_more_read vs s Hinv) as (sched1 & s1 & Hrun1 & Hlen1); [lia|].
    assert (Hinv1 : fifo_inv vs s1).
    { eapply fifo_inv_reachable; [exact Hinv|]. by eapply run_reachable. }
    destruct (IH s1 Hinv1) as (sched2 & s2 & Hrun2 & Hall); [lia|].
    exists (sched1 ++ sched2), s2. by rewrite run_app, Hrun1.
Qed.

(** C2.  On the POSIX backend, for a producer writing the values [vs] into a
    ring that starts empty and a consumer reading from it:
    - under every interleaving, what the consumer's [Read] calls have
      returned so far is an initial part of [vs], in order, each value paired
      with [true]; the [Write] calls have all returned [true]; once as many
      reads as [length vs] have returned, they returned exactly [vs]; no
      step panics; and the run can be continued so that the consumer is
      handed all of [vs];
    - the schedule that alternates one whole [Write] and one whole [Read]
      delivers all of [vs];
    - a [Write] of [v] followed by one [Read] returns exactly [v] and leaves
      the ring empty again. *)
Theorem fifo_delivery (rb : SharedAtomicRingBuffer) (vs : list Z) :
  ring_wf rb -> is_empty rb ->
  (forall s,
     reachable posix (init_system rb vs) s ->
     (exists rest, vs = (c_rets (sys_cons s)).*1 ++ rest) /\
     Forall (fun r => r.2 = true) (c_rets (sys_cons s)) /\
     Forall (fun b => b = true) (p_rets (sys_prod s)) /\
     (length (c_rets (sys_cons s)) = length vs ->
      c_rets (sys_cons s) = (fun v => (v, true)) <$> vs) /\
     (forall t, sys_step posix t s <> SysPanic) /\
     (exists sched s',
        run posix sched s = SysOk s' /\
        c_rets (sys_cons s') = (fun v => (v, true)) <$> vs)) /\
  (exists s,
     run posix (lockstep (length vs)) (init_system rb vs) = SysOk s /\
     c_rets (sys_cons s) = (fun v => (v, true)) <$> vs /\
     p_rets (sys_prod s) = replicate (length vs) true) /\
  (forall v,
     exists rb1 rb2,
       Write posix call_steps rb v = Done rb1 true [] /\
       Read call_steps rb1 = Done rb2 (v, true) [] /\
       is_empty rb2).
Proof.
  intros Hwf He. split_and!.
  - intros s Hreach.
    pose proof (fifo_inv_reachable vs _ _ (fifo_inv_init rb vs Hwf He) Hreach) as Hinv.
    split_and!.
    + eexists. symmetry. apply Hinv.
    + apply Hinv.
    + apply Hinv.
    + apply (fifo_inv_all_read vs s Hinv).
    + intros t. by eapply fifo_inv_no_panic.
    + by apply fifo_completion.
  - destruct (run_lockstep vs rb [] [] Hwf He) as (rb' & Hrun & _ & _).
    eexists. split; [exact Hrun|]. done.
  - intros v.
    assert (Hnf : ~ is_full rb).
    { unfold is_full, is_empty in *. rewrite <- He.
      apply next_index_neq, Hwf. }
    exists (written rb v), (advanced (written rb v)).
    split_and!.
    + by apply Write_posix_returns.
    + rewrite Read_returns; [|by apply written_wf| |done].
      * unfold front, written. simpl. unfold is_empty in He. rewrite <- He.
        destruct Hwf as (Hlen & Hw & Hr).
        rewrite list_lookup_insert_eq by lia. done.
      * unfold is_empty, written. simpl. unfold is_empty in He. rewrite <- He.
        apply next_index_neq, Hwf.
    + by apply advanced_written_empty.
Qed.

Lemma fifo_delivery_witness :
  ring_wf zero_ring /\ is_empty zero_ring /\
  (forall s,
     reachable posix (init_system zero_ring (main_values 3)) s ->
     (exists rest, main_values 3 = (c_rets (sys_cons s)).*1 ++ rest) /\
     Forall (fun r => r.2 = true) (c_rets (sys_cons s)) /\
     Forall (fun b => b = true) (p_rets (sys_prod s)) /\
     (length (c_rets (sys_cons s)) = length (main_values 3) ->
      c_rets (sys_cons s) = (fun v => (v, true)) <$> main_values 3) /\
     (forall t, sys_step posix t s <> SysPanic) /\
     (exists sched s',
        run posix sched s = SysOk s' /\
        c_rets (sys_cons s') = (fun v => (v, true)) <$> main_values 3)) /\
  (exists s,
     run posix (lockstep (length (main_values 3))) (init_system zero_ring (main_values 3))
       = SysOk s /\
     c_rets (sys_cons s) = (fun v => (v, true)) <$> main_values 3 /\
     p_rets (sys_prod s) = replicate (length (main_values 3)) true) /\
  (forall v,
     exists rb1 rb2,
       Write posix call_steps zero_ring v = Done rb1 true [] /\
       Read call_steps rb1 = Done rb2 (v, true) [] /\
       is_empty rb2).
Proof.
  assert (Hwf : ring_wf zero_ring) by ring_wf_by_evaluation.
  assert (He : is_empty zero_ring) by reflexivity.
  split_and!; [exact Hwf|exact He|..];
    apply (fifo_delivery zero_ring (main_values 3) Hwf He).
Defined.

(** ** The fullness check *)

(** X5.  On the POSIX backend the loop does what it is there for: under every
    interleaving the values published and not yet read are exactly the unread
    window, there are at most [bufferSize - 1] of them, and a producer about
    to store is looking at a ring that is not full and at a slot outside the
    unread window. *)
Lemma posix_never_overwrites rb vs s :
  ring_wf rb -> is_empty rb ->
  reachable posix (init_system rb vs) s ->
  length (p_rets (sys_prod s))
    = (length (c_rets (sys_cons s)) + unread_count (shm s))%nat /\
  (unread_count (shm s) <= Z.to_nat (bufferSize - 1))%nat /\
  forall v w n,
    p_frame (sys_prod s) = Some (W_store v w n) ->
    ~ is_full (shm s) /\
    unread (mkRing (<[Z.to_nat w := v]> (buffer (shm s)))
                   (writeIdx (shm s)) (readIdx (shm s)))
    = unread (shm s).
Proof.
  intros Hwf He Hreach.
  pose proof (fifo_inv_reachable vs _ _ (fifo_inv_init rb vs Hwf He) Hreach) as Hinv.
  destruct Hinv as [Hwf' Hp Hc Hh Ho Hr Hn]. split_and!.
  - done.
  - pose proof (unread_count_lt (shm s)). lia.
  - intros v w n Hfr. unfold producer_inv in Hp. rewrite Hfr in Hp.
    destruct Hp as (-> & -> & Hnf). split; [done|]. by apply unread_store.
Qed.

(** X6.  The Windows [Write] on a full ring: it waits once, stores all the same
    and returns [true]; the cursors are then equal, so the ring reads as
    empty and its [bufferSize - 1] unread values are lost. *)
Lemma windows_Write_on_full rb v :
  ring_wf rb -> is_full rb ->
  Write windows call_steps rb v
    = Done (written rb v) true [SpinWait (5 * Microsecond)] /\
  is_empty (written rb v) /\
  unread (written rb v) = [].
Proof.
  intros Hwf Hfull.
  assert (He : is_empty (written rb v)) by exact Hfull.
  split_and!; [|done|by apply unread_empty].
  rewrite Write_windows_returns by done.
  unfold is_full in Hfull. by rewrite decide_True.
Qed.

(** C1 (the Windows backend breaks it).  A fresh segment, the producer of
    [main] writing 1, 2, 3, ... and no read.  After 1023 writes the ring is
    full.  On the Windows backend the 1024th [Write] finds it full, waits
    once, stores and returns [true]: the ring is now empty to a reader.  The
    1025th [Write] stores over slot 0, which held the unread value 1, and the
    first [Read] then returns 1025.  On the POSIX backend the same schedule
    leaves the producer waiting after 1023 writes and the [Read] returns 1. *)
Theorem windows_Write_overwrites_unread :
  let rb_full := default zero_ring (write_all windows zero_ring (main_values 1023)) in
  is_full rb_full /\
  unread rb_full = main_values 1023 /\
  Write windows call_steps rb_full 1024
    = Done (written rb_full 1024) true [SpinWait (5 * Microsecond)] /\
  unread (written rb_full 1024) = [] /\
  observe (run windows
             (replicate (5 * 1025) producer ++ replicate 5 consumer)
             (init_system zero_ring (main_values 1025)))
    = Some (replicate 1025 true, [(1025, true)]) /\
  observe (run posix
             (replicate (5 * 1025) producer ++ replicate 5 consumer)
             (init_system zero_ring (main_values 1025)))
    = Some (replicate 1023 true, [(1, true)]).
Proof. split_and!; vm_compute; reflexivity. Qed.

(** ** Spin durations *)

(** C8 as stated fails: nothing a call is given changes how long it waits. *)
Lemma spin_waits_not_tunable :
  ~ tunable_wait Posix.Write_step /\
  ~ tunable_wait Windows.Write_step /\
  ~ tunable_wait Read_step.
Proof.
  split_and!; intros (rb1 & fr1 & d1 & rb2 & fr2 & d2 & H1 & H2 & Hne); apply Hne;
    destruct fr1, fr2; simpl in H1, H2;
    repeat (case_decide; simpl in H1, H2);
    repeat (destruct (slot_store _ _ _); simpl in H1, H2);
    repeat (destruct (slot_load _ _); simpl in H1, H2);
    congruence.
Qed.

(** C8, amended.  The two durations are literals of the code: every wait of
    [Write], in both backends, lasts 5 microseconds and every wait of [Read]
    lasts 1 microsecond; both waits do occur; and the full-wait is strictly
    longer than the empty-wait. *)
Theorem spin_waits_are_literals :
  (forall be rb fr,
     wait_of (Write_step be rb fr) = None \/
     wait_of (Write_step be rb fr) = Some (5 * Microsecond)) /\
  (forall rb fr,
     wait_of (Read_step rb fr) = None \/
     wait_of (Read_step rb fr) = Some (1 * Microsecond)) /\
  (forall be, exists rb fr, wait_of (Write_step be rb fr) = Some 5000) /\
  (exists rb fr, wait_of (Read_step rb fr) = Some 1000) /\
  1 * Microsecond < 5 * Microsecond.
Proof.
  split_and!.
  - intros be rb fr. destruct be, fr; simpl; repeat case_decide; simpl;
      repeat (destruct (slot_store _ _ _); simpl); auto.
  - intros rb fr. destruct fr; simpl; repeat case_decide; simpl;
      repeat (destruct (slot_load _ _); simpl); auto.
  - intros be. exists zero_ring, (W_check 0 0 0). by destruct be.
  - by exists zero_ring, (R_check 0).
  - reflexivity.
Qed.

(** ** Segment size *)

(** C3 as stated fails: the Windows struct is 8 bytes larger. *)
Lemma windows_segment_size_differs :
  Windows.segment_size 8 <> bufferSize * 8 + 16 /\
  Windows.segment_size 8 <> Posix.segment_size 8.
Proof. split; vm_compute; discriminate. Qed.

(** ** Segment creation *)

Lemma fresh_handle_free w : handles w !! fresh_handle w = None.
Proof. unfold fresh_handle. apply not_elem_of_dom. apply is_fresh. Qed.

Lemma close_fresh (w : World) (x : string) :
  delete (fresh_handle w) (<[fresh_handle w := x]> (handles w)) = handles w.
Proof. apply delete_insert_id, fresh_handle_free. Qed.

(** When no call fails, the POSIX creation returns the region, leaves the
    file with exactly [segment_size] zero bytes and holds no descriptor. *)
Lemma posix_creation_succeeds (join : string -> string -> string) word name w :
  Posix.NewSharedAtomicRingBuffer join no_faults word name w
  = (mkWorld (<[join "/tmp" name := replicate (Z.to_nat (Posix.segment_size word)) 0]>
                (stores w))
             (handles w)
             (views w ++ [(join "/tmp" name, Posix.segment_size word)]),
     inl (join "/tmp" name, Posix.segment_size word)).
Proof.
  unfold Posix.NewSharedAtomicRingBuffer.
  generalize (Posix.segment_size word) as size. intros size.
  unfold os_OpenFile, syscall_Ftruncate, syscall_Mmap, file_Close. simpl.
  rewrite !lookup_insert_eq. simpl. rewrite !lookup_insert_eq. simpl.
  rewrite insert_insert_eq, resize_nil, close_fresh. done.
Qed.

(** When a call fails, the POSIX creation returns the error of that call;
    descriptors and mapped regions are as before, and once the file was
    opened it is removed. *)
Lemma posix_creation_fails (join : string -> string -> string) flt word name w :
  create_fails flt || resize_fails flt || map_fails flt = true ->
  exists w' e,
    Posix.NewSharedAtomicRingBuffer join flt word name w = (w', inr e) /\
    handles w' = handles w /\ views w' = views w /\
    (create_fails flt = true -> stores w' = stores w) /\
    (create_fails flt = false -> stores w' !! join "/tmp" name = None).
Proof.
  intros Hflt.
  unfold Posix.NewSharedAtomicRingBuffer.
  generalize (Posix.segment_size word) as size. intros size.
  unfold os_OpenFile, syscall_Ftruncate, syscall_Mmap, file_Close, os_Remove.
  destruct (create_fails flt) eqn:Hc; simpl.
  { do 2 eexists. by split_and!. }
  destruct (resize_fails flt) eqn:Hr; simpl.
  { do 2 eexists. split; [done|]. simpl. rewrite close_fresh.
    split_and!; try done. intros _. apply lookup_delete_eq. }
  simpl in Hflt. rewrite Hflt. simpl.
  rewrite !lookup_insert_eq. simpl.
  do 2 eexists. split; [done|]. simpl. rewrite close_fresh.
  split_and!; try done. intros _. apply lookup_delete_eq.
Qed.

(** On a fresh name and with no failing call the Windows creation returns
    the region; on a name that exists it returns the error of the first
    call and keeps the handle that came with it. *)
Lemma windows_creation_result flt word name w :
  Windows.NewSharedAtomicRingBuffer flt word name w
  = if create_fails flt then (w, inr failed_to_create_file_mapping)
    else
      match stores w !! name with
      | Some _ =>
          (mkWorld (stores w) (<[fresh_handle w := name]> (handles w)) (views w),
           inr failed_to_create_file_mapping)
      | None =>
          if map_fails flt
          then (mkWorld (<[name := replicate
                            (Z.to_nat (Windows.segment_size word mod 2 ^ 32)) 0]>
                           (stores w))
                        (handles w) (views w),
                inr failed_to_map_view_of_file)
          else (mkWorld (<[name := replicate
                            (Z.to_nat (Windows.segment_size word mod 2 ^ 32)) 0]>
                           (stores w))
                        (<[fresh_handle w := name]> (handles w))
                        (views w ++ [(name, Windows.segment_size word)]),
                inl (name, Windows.segment_size word))
      end.
Proof.
  unfold Windows.NewSharedAtomicRingBuffer.
  generalize (Windows.segment_size word) as size. intros size.
  unfold windows_CreateFileMapping, windows_MapViewOfFile, windows_CloseHandle.
  destruct (create_fails flt); [done|].
  destruct (stores w !! name); [done|].
  destruct (map_fails flt); simpl.
  - by rewrite close_fresh.
  - by rewrite lookup_insert_eq.
Qed.

(** C3, amended.  The POSIX backend asks for exactly [bufferSize * 8 + 16]
    bytes (1024 slots and two cursors of 8 bytes) on 32- and 64-bit targets;
    the Windows struct has the extra field [addr], and that backend asks for
    [bufferSize * 8 + 24] bytes on both.  These are the sizes of the regions
    the two creations return (the Windows one for a name that does not
    exist yet; for a name that exists it returns the creation error). *)
Theorem segment_sizes :
  (forall word, Posix.segment_size word = bufferSize * 8 + 16) /\
  Windows.segment_size 8 = bufferSize * 8 + 24 /\
  Windows.segment_size 4 = bufferSize * 8 + 24 /\
  (forall join word name w,
     (Posix.NewSharedAtomicRingBuffer join no_faults word name w).2
     = inl (join "/tmp" name, bufferSize * 8 + 16)) /\
  (forall name w,
     (Windows.NewSharedAtomicRingBuffer no_faults 8 name w).2
     = match stores w !! name with
       | None => inl (name, bufferSize * 8 + 24)
       | Some _ => inr failed_to_create_file_mapping
       end).
Proof.
  assert (HP : forall word, Posix.segment_size word = bufferSize * 8 + 16).
  { intros word. reflexivity. }
  split_and!; try done.
  - intros join word name w. by rewrite posix_creation_succeeds, HP.
  - intros name w. rewrite windows_creation_result. simpl.
    by destruct (stores w !! name).
Qed.

(** C6 (the Windows backend breaks it).  A process attaches to a segment
    that exists: the mapping object "SharedRingBuffer" is there and the
    process holds no handle.  [CreateFileMapping] opens the object and
    returns its handle with [ERROR_ALREADY_EXISTS]; the creation returns
    "failed to create file mapping" and the handle, which nothing closed, is
    still held.  The other error path of the same function, a view that
    cannot be mapped, does close the handle: after it the process holds
    none. *)
Theorem windows_creation_leaks_handle :
  let r := Windows.NewSharedAtomicRingBuffer no_faults 8
             "SharedRingBuffer" attached_world in
  let r' := Windows.NewSharedAtomicRingBuffer (mkFaults false false true) 8
              "SharedRingBuffer" empty_world in
  handles attached_world = ∅ /\
  r.2 = inr failed_to_create_file_mapping /\
  handles r.1 !! fresh_handle attached_world = Some "SharedRingBuffer" /\
  views r.1 = [] /\
  r'.2 = inr failed_to_map_view_of_file /\
  handles r'.1 = ∅ /\
  views r'.1 = [].
Proof. split_and!; vm_compute; reflexivity. Qed.

(** C9 as stated fails.  A file left by an earlier run shows a ring with the
    unread value 42; creating the segment again under the same name succeeds
    and the region then shows the all-zero ring: the old bytes are gone. *)
Lemma posix_creation_resets_stale_file :
  unread <$> Posix.ring_of 8 stale_world ("/tmp/SharedRingBuffer", 8208) = Some [42] /\
  let r := Posix.NewSharedAtomicRingBuffer plain_Join no_faults 8
             "SharedRingBuffer" stale_world in
  r.2 = inl ("/tmp/SharedRingBuffer", 8208) /\
  Posix.ring_of 8 r.1 ("/tmp/SharedRingBuffer", 8208) = Some zero_ring /\
  stores r.1 !! "/tmp/SharedRingBuffer" <> Some stale_bytes.
Proof.
  split; [vm_compute; reflexivity|].
  split_and!; vm_compute; (reflexivity || discriminate).
Qed.

(** C9, amended.  On the file-backed backend every successful creation,
    the first one or a later one, whatever the file held before, leaves the
    file with exactly [segment_size] zero bytes, so the region shows the
    empty ring with both cursors at 0; the file is opened with [O_TRUNC] and
    then extended, which resets it. *)
Theorem posix_creation_zero_fills (join : string -> string -> string)
    (word : Z) (name : string) (w : World) :
  exists w',
    Posix.NewSharedAtomicRingBuffer join no_faults word name w
      = (w', inl (join "/tmp" name, Posix.segment_size word)) /\
    stores w' !! join "/tmp" name
      = Some (replicate (Z.to_nat (Posix.segment_size word)) 0) /\
    Posix.ring_of word w' (join "/tmp" name, Posix.segment_size word)
      = Some zero_ring /\
    handles w' = handles w.
Proof.
  eexists. split; [apply posix_creation_succeeds|]. simpl.
  split_and!; [apply lookup_insert_eq| |done].
  unfold Posix.ring_of. simpl. rewrite lookup_insert_eq. simpl.
  vm_compute. reflexivity.
Qed.

(** * Further properties of the two files *)

(** ** The ring as a bounded queue *)

Lemma unread_nil_empty rb : ring_wf rb -> unread rb = [] -> is_empty rb.
Proof.
  intros (Hlen & Hw & Hr) Hnil. apply (f_equal length) in Hnil.
  rewrite unread_length in Hnil. simpl in Hnil.
  unfold unread_count, is_empty in *.
  destruct (ring_dist_cases _ _ Hr Hw) as [[? Hd]|[? Hd]]; lia.
Qed.

(** X1.  On a well-formed ring, in both backends, [Write] and [Read] are the
    two operations of a queue of at most [bufferSize - 1] values whose
    content is the unread window: the window is empty exactly when the
    cursors are equal and has [bufferSize - 1] values exactly when the ring
    is full; on a ring that is not full [Write v] returns [true] without
    waiting and appends [v] to the window; on a ring that is not empty
    [Read] returns the first value of the window paired with [true] and
    removes it. *)
Theorem ring_is_a_bounded_queue (be : Backend) (rb : SharedAtomicRingBuffer) :
  ring_wf rb ->
  (length (unread rb) <= Z.to_nat (bufferSize - 1))%nat /\
  (is_empty rb <-> unread rb = []) /\
  (is_full rb <-> length (unread rb) = Z.to_nat (bufferSize - 1)) /\
  (forall v,
     ~ is_full rb ->
     Write be call_steps rb v = Done (written rb v) true [] /\
     unread (written rb v) = unread rb ++ [v]) /\
  (~ is_empty rb ->
   exists x rest,
     unread rb = x :: rest /\
     Read call_steps rb = Done (advanced rb) (x, true) [] /\
     unread (advanced rb) = rest).
Proof.
  intros Hwf. split_and!.
  - rewrite unread_length. pose proof (unread_count_lt rb). lia.
  - split; [apply unread_empty|by apply unread_nil_empty].
  - rewrite unread_length. by apply is_full_count.
  - intros v Hnf. split; [|by apply unread_written].
    destruct be; [by apply Write_posix_returns|].
    rewrite Write_windows_returns by done.
    unfold is_full in Hnf. by rewrite decide_False.
  - intros Hne. destruct (unread_advanced rb Hwf Hne) as [Hu _].
    exists (front rb), (unread (advanced rb)). split_and!; [done| |done].
    by apply Read_returns.
Qed.

Lemma ring_is_a_bounded_queue_witness :
  ring_wf (written zero_ring 7) /\
  (length (unread (written zero_ring 7)) <= Z.to_nat (bufferSize - 1))%nat /\
  (is_empty (written zero_ring 7) <-> unread (written zero_ring 7) = []) /\
  (is_full (written zero_ring 7)
   <-> length (unread (written zero_ring 7)) = Z.to_nat (bufferSize - 1)) /\
  (forall v,
     ~ is_full (written zero_ring 7) ->
     Write windows call_steps (written zero_ring 7) v
       = Done (written (written zero_ring 7) v) true [] /\
     unread (written (written zero_ring 7) v) = unread (written zero_ring 7) ++ [v]) /\
  (~ is_empty (written zero_ring 7) ->
   exists x rest,
     unread (written zero_ring 7) = x :: rest /\
     Read call_steps (written zero_ring 7)
       = Done (advanced (written zero_ring 7)) (x, true) [] /\
     unread (advanced (written zero_ring 7)) = rest).
Proof.
  assert (Hwf : ring_wf (written zero_ring 7)) by ring_wf_by_evaluation.
  split; [exact Hwf|].
  exact (ring_is_a_bounded_queue windows (written zero_ring 7) Hwf).
Defined.

(** ** Cursors outside the ring *)

(** X2.  [Write] and [Read] use the cursor they load from shared memory as
    it is.  When [writeIdx] is not below [bufferSize] (and the fullness test
    lets the call through), [Write] panics at the slot store, in both
    backends; when [readIdx] is not below [bufferSize] (and the ring does not
    look empty), [Read] panics at the slot load.  Neither returns. *)
Theorem cursor_out_of_range_panics (be : Backend) (rb : SharedAtomicRingBuffer)
    (fuel : nat) :
  (3 <= fuel)%nat ->
  (forall v,
     ~ 0 <= writeIdx rb < bufferSize ->
     next_index (writeIdx rb) <> readIdx rb ->
     Write be fuel rb v = Panic) /\
  (~ 0 <= readIdx rb < bufferSize ->
   readIdx rb <> writeIdx rb ->
   Read fuel rb = Panic).
Proof.
  intros Hfuel. do 3 (destruct fuel as [|fuel]; [lia|]). split.
  - intros v Hw Hnf. unfold Write. destruct be; simpl;
      rewrite decide_False by done; simpl;
      unfold slot_store; by rewrite decide_False.
  - intros Hr Hne. unfold Read. simpl.
    rewrite decide_False by done. simpl.
    unfold slot_load. by rewrite decide_False.
Qed.

Lemma cursor_out_of_range_panics_witness :
  let rb := mkRing (buffer zero_ring) 5000 6000 in
  (3 <= 3)%nat /\
  ~ 0 <= writeIdx rb < bufferSize /\
  next_index (writeIdx rb) <> readIdx rb /\
  ~ 0 <= readIdx rb < bufferSize /\
  readIdx rb <> writeIdx rb /\
  Write posix 3 rb 7 = Panic /\
  Read 3 rb = Panic.
Proof.
  intros rb.
  assert (H3 : (3 <= 3)%nat) by lia.
  assert (Hw : ~ 0 <= writeIdx rb < bufferSize) by (vm_compute; intros [_ H]; discriminate).
  assert (Hnf : next_index (writeIdx rb) <> readIdx rb) by (vm_compute; discriminate).
  assert (Hr : ~ 0 <= readIdx rb < bufferSize) by (vm_compute; intros [_ H]; discriminate).
  assert (Hne : readIdx rb <> writeIdx rb) by (vm_compute; discriminate).
  split_and!; [exact H3|exact Hw|exact Hnf|exact Hr|exact Hne|..].
  - exact (proj1 (cursor_out_of_range_panics posix rb 3 H3) 7 Hw Hnf).
  - exact (proj2 (cursor_out_of_range_panics posix rb 3 H3) Hr Hne).
Defined.

(** ** [SpinWait] *)

Lemma SpinWait_loop_exit elapsed duration fuel i n :
  SpinWait_loop elapsed duration fuel i = Some n ->
  (i <= n)%nat /\ duration <= elapsed n /\
  forall j, (i <= j < n)%nat -> elapsed j < duration.
Proof.
  revert i. induction fuel as [|fuel IH]; intros i; simpl; [done|].
  case_decide as Hlt.
  - intros Hrun. destruct (IH _ Hrun) as (Hle & Hn & Hbelow).
    split_and!; [lia|done|]. intros j Hj.
    destruct (decide (j = i)) as [->|Hji]; [done|]. apply Hbelow. lia.
  - intros [= <-]. split_and!; [done|lia|]. intros j Hj. lia.
Qed.

(** X3.  When [SpinWait(duration)] returns, the clock reading that ended the
    loop is at least [duration] after the start, every reading before it
    was below [duration], and [runtime.Gosched()] was called once per
    reading below [duration]: the wait lasts at least [duration] and not one
    reading longer. *)
Theorem SpinWait_waits_the_duration (elapsed : nat -> Duration)
    (duration : Duration) (fuel n : nat) :
  SpinWait_run elapsed duration fuel = Some n ->
  duration <= elapsed n /\ forall j, (j < n)%nat -> elapsed j < duration.
Proof.
  intros Hrun. destruct (SpinWait_loop_exit _ _ _ _ _ Hrun) as (_ & Hn & Hbelow).
  split; [done|]. intros j Hj. apply Hbelow. lia.
Qed.

Lemma SpinWait_waits_the_duration_witness :
  let elapsed := fun i : nat => 1000 * Z.of_nat i in
  SpinWait_run elapsed (5 * Microsecond) 10 = Some 5%nat /\
  5 * Microsecond <= elapsed 5%nat /\
  forall j, (j < 5)%nat -> elapsed j < 5 * Microsecond.
Proof.
  intros elapsed.
  assert (Hrun : SpinWait_run elapsed (5 * Microsecond) 10 = Some 5%nat)
    by (vm_compute; reflexivity).
  split; [exact Hrun|].
  exact (SpinWait_waits_the_duration elapsed (5 * Microsecond) 10 5 Hrun).
Defined.

Lemma SpinWait_loop_terminates elapsed duration fuel i :
  (forall k, Z.of_nat k <= elapsed k) ->
  (1 <= fuel)%nat -> (Z.to_nat duration < fuel + i)%nat ->
  exists n,
    SpinWait_loop elapsed duration fuel i = Some n /\
    (n <= i `max` Z.to_nat duration)%nat.
Proof.
  intros Hclock. revert i. induction fuel as [|fuel IH]; intros i H1 Hfuel; [lia|].
  simpl. case_decide as Hlt.
  - pose proof (Hclock i).
    destruct (IH (S i)) as (n & Hrun & Hn); [lia..|].
    exists n. split; [done|lia].
  - exists i. split; [done|lia].
Qed.

(** X4.  [SpinWait] terminates when the clock moves: if every reading of
    the monotonic clock is at least a nanosecond after the one before, the
    loop is left after at most [duration] calls of [runtime.Gosched()]
    (none at all for a duration that is zero or negative). *)
Theorem SpinWait_terminates (elapsed : nat -> Duration) (duration : Duration)
    (fuel : nat) :
  0 <= elapsed 0%nat ->
  (forall i, elapsed i + 1 <= elapsed (S i)) ->
  (Z.to_nat duration < fuel)%nat ->
  exists n,
    SpinWait_run elapsed duration fuel = Some n /\
    (n <= Z.to_nat duration)%nat.
Proof.
  intros H0 Htick Hfuel.
  assert (Hclock : forall k, Z.of_nat k <= elapsed k).
  { induction k as [|k IH]; [simpl; lia|]. pose proof (Htick k). lia. }
  destruct (SpinWait_loop_terminates elapsed duration fuel 0 Hclock) as (n & Hrun & Hn);
    [lia..|].
  exists n. split; [done|lia].
Qed.

Lemma SpinWait_terminates_witness :
  let elapsed := fun i : nat => 1000 * Z.of_nat i in
  0 <= elapsed 0%nat /\
  (forall i, elapsed i + 1 <= elapsed (S i)) /\
  (Z.to_nat (1 * Microsecond) < 1001)%nat /\
  exists n,
    SpinWait_run elapsed (1 * Microsecond) 1001 = Some n /\
    (n <= Z.to_nat (1 * Microsecond))%nat.
Proof.
  intros elapsed.
  assert (H0 : 0 <= elapsed 0%nat) by (vm_compute; discriminate).
  assert (Htick : forall i, elapsed i + 1 <= elapsed (S i)) by (intros i; unfold elapsed; lia).
  assert (Hfuel : (Z.to_nat (1 * Microsecond) < 1001)%nat) by (vm_compute; lia).
  split_and!; [exact H0|exact Htick|exact Hfuel|].
  exact (SpinWait_terminates elapsed (1 * Microsecond) 1001 H0 Htick Hfuel).
Defined.

(** ** Witnesses for the two lemmas on the fullness check *)

Lemma posix_never_overwrites_witness :
  let s := mkSystem (written zero_ring 1)
             (mkProducer (Some (W_store 2 1 2)) [3] [true]) (mkConsumer None []) in
  ring_wf zero_ring /\ is_empty zero_ring /\
  reachable posix (init_system zero_ring [1; 2; 3]) s /\
  length (p_rets (sys_prod s))
    = (length (c_rets (sys_cons s)) + unread_count (shm s))%nat /\
  (unread_count (shm s) <= Z.to_nat (bufferSize - 1))%nat /\
  forall v w n,
    p_frame (sys_prod s) = Some (W_store v w n) ->
    ~ is_full (shm s) /\
    unread (mkRing (<[Z.to_nat w := v]> (buffer (shm s)))
                   (writeIdx (shm s)) (readIdx (shm s)))
    = unread (shm s).
Proof.
  intros s.
  assert (Hwf : ring_wf zero_ring) by ring_wf_by_evaluation.
  assert (He : is_empty zero_ring) by reflexivity.
  assert (Hreach : reachable posix (init_system zero_ring [1; 2; 3]) s).
  { apply (run_reachable posix (replicate 8 producer)). vm_compute. reflexivity. }
  split_and!; [exact Hwf|exact He|exact Hreach|..];
    apply (posix_never_overwrites zero_ring [1; 2; 3] s Hwf He Hreach).
Defined.

Lemma windows_Write_on_full_witness :
  let rb := default zero_ring (write_all windows zero_ring (main_values 1023)) in
  ring_wf rb /\ is_full rb /\
  Write windows call_steps rb 1024
    = Done (written rb 1024) true [SpinWait (5 * Microsecond)] /\
  is_empty (written rb 1024) /\
  unread (written rb 1024) = [].
Proof.
  intros rb.
  assert (Hwf : ring_wf rb) by ring_wf_by_evaluation.
  assert (Hfull : is_full rb) by (vm_compute; reflexivity).
  split_and!; [exact Hwf|exact Hfull|..];
    apply (windows_Write_on_full rb 1024 Hwf Hfull).
Defined.

(** ** The Windows producer never waits for the consumer *)

Lemma windows_producer_step_position s s' :
  producer_step windows s = SysOk s' ->
  (5 * length (p_rets (sys_prod s')) + write_position (p_frame (sys_prod s')))%nat
  = S (5 * length (p_rets (sys_prod s)) + write_position (p_frame (sys_prod s))).
Proof.
  destruct s as [rb [pf todo prets] c]. unfold producer_step; simpl.
  destruct pf as [[v|v w n|v w n|n]|]; simpl.
  - by intros [= <-].
  - case_decide; by intros [= <-].
  - destruct (slot_store _ _ _); [|done]. by intros [= <-].
  - intros [= <-]. simpl. rewrite length_app. simpl. lia.
  - destruct todo; [done|]. intros [= <-]. simpl. lia.
Qed.

Lemma consumer_step_producer s s' :
  consumer_step s = SysOk s' -> sys_prod s' = sys_prod s.
Proof.
  destruct s as [rb p [cf crets]]. unfold consumer_step; simpl.
  destruct cf as [fr|]; [|by intros [= <-]].
  destruct (Read_step rb fr); [| |done]; by intros [= <-].
Qed.

Lemma windows_run_position sched s s' :
  run windows sched s = SysOk s' ->
  (5 * length (p_rets (sys_prod s')) + write_position (p_frame (sys_prod s')))%nat
  = (steps_of producer sched
     + (5 * length (p_rets (sys_prod s)) + write_position (p_frame (sys_prod s))))%nat.
Proof.
  revert s. induction sched as [|t sched IH]; intros s Hrun; simpl in Hrun.
  - by injection Hrun as <-.
  - destruct (sys_step windows t s) as [s1| |] eqn:Hstep; [|done..].
    rewrite (IH _ Hrun). unfold steps_of.
    destruct t; simpl in Hstep.
    + pose proof (windows_producer_step_position _ _ Hstep) as Hp.
      rewrite filter_cons_True by done. simpl length. lia.
    + rewrite filter_cons_False by done.
      by rewrite (consumer_step_producer _ _ Hstep).
Qed.

(** X7.  On the Windows backend the producer's progress depends on its own
    steps only: a call is entered in one step and returns four steps later
    whatever the consumer does in between, so after any run the number of
    [Write] calls that have returned is the number of steps the producer was
    given divided by five. *)
Theorem windows_producer_never_waits (rb : SharedAtomicRingBuffer) (vs : list Z)
    (sched : list Role) (s : System) :
  run windows sched (init_system rb vs) = SysOk s ->
  length (p_rets (sys_prod s)) = (steps_of producer sched / 5)%nat /\
  write_position (p_frame (sys_prod s)) = (steps_of producer sched mod 5)%nat.
Proof.
  intros Hrun. pose proof (windows_run_position _ _ _ Hrun) as Hpos. simpl in Hpos.
  assert (Hlt : (write_position (p_frame (sys_prod s)) < 5)%nat).
  { destruct (p_frame (sys_prod s)) as [[]|]; simpl; lia. }
  split.
  - apply (Nat.div_unique _ 5 _ (write_position (p_frame (sys_prod s)))); lia.
  - apply (Nat.mod_unique _ 5 (length (p_rets (sys_prod s)))); lia.
Qed.

Lemma windows_producer_never_waits_witness :
  let sched := replicate 12 producer ++ [consumer] in
  exists s,
    run windows sched (init_system zero_ring (main_values 5)) = SysOk s /\
    length (p_rets (sys_prod s)) = (steps_of producer sched / 5)%nat /\
    write_position (p_frame (sys_prod s)) = (steps_of producer sched mod 5)%nat.
Proof.
  intros sched.
  destruct (run windows sched (init_system zero_ring (main_values 5))) as [s| |] eqn:Hrun;
    [|vm_compute in Hrun; discriminate..].
  exists s. split; [reflexivity|].
  exact (windows_producer_never_waits zero_ring (main_values 5) sched s Hrun).
Defined.

(** ** Where the two backends agree *)

Lemma Write_step_agree rb fr :
  wait_of (Write_step windows rb fr) = None ->
  Write_step posix rb fr = Write_step windows rb fr.
Proof.
  destruct fr; simpl; try done.
  case_decide; simpl; [discriminate|done].
Qed.

Lemma sys_step_agree t s :
  finds_full windows t s = false -> sys_step posix t s = sys_step windows t s.
Proof.
  destruct t; [|done]. destruct s as [rb [pf todo prets] c].
  unfold finds_full, sys_step, producer_step; simpl.
  destruct pf as [fr|]; [|done].
  intros Hw. apply bool_decide_eq_false in Hw.
  assert (Hnone : wait_of (Windows.Write_step rb fr) = None).
  { destruct (wait_of (Windows.Write_step rb fr)); [|done].
    exfalso. apply Hw. by eexists. }
  change Posix.Write_step with (Write_step posix).
  change Windows.Write_step with (Write_step windows).
  by rewrite (Write_step_agree rb fr Hnone).
Qed.

Lemma run_agree sched s :
  full_waits windows sched s = 0%nat -> run posix sched s = run windows sched s.
Proof.
  revert s. induction sched as [|t sched IH]; intros s; simpl; [done|].
  destruct (finds_full windows t s) eqn:Hf; [done|]. simpl.
  rewrite (sys_step_agree _ _ Hf).
  destruct (sys_step windows t s); [apply IH|done..].
Qed.

(** X8.  The two backends differ at one point only.  Along any schedule on
    which no Windows [Write] finds the ring full, the Windows backend makes
    exactly the steps of the POSIX backend; so, started on an empty ring, its
    reads are then an initial part of the values written, in order, each
    paired with [true]. *)
Theorem windows_agrees_while_not_full (rb : SharedAtomicRingBuffer) (vs : list Z)
    (sched : list Role) (s : System) :
  ring_wf rb -> is_empty rb ->
  full_waits windows sched (init_system rb vs) = 0%nat ->
  run windows sched (init_system rb vs) = SysOk s ->
  run posix sched (init_system rb vs) = SysOk s /\
  (exists rest, vs = (c_rets (sys_cons s)).*1 ++ rest) /\
  Forall (fun r => r.2 = true) (c_rets (sys_cons s)).
Proof.
  intros Hwf He Hnw Hrun.
  assert (Hposix : run posix sched (init_system rb vs) = SysOk s).
  { by rewrite run_agree. }
  split; [done|].
  pose proof (fifo_inv_reachable vs _ _ (fifo_inv_init rb vs Hwf He)
                (run_reachable _ _ _ _ Hposix)) as Hinv.
  split; [|apply Hinv]. eexists. symmetry. apply Hinv.
Qed.

Lemma windows_agrees_while_not_full_witness :
  let sched := lockstep 3 in
  ring_wf zero_ring /\ is_empty zero_ring /\
  full_waits windows sched (init_system zero_ring (main_values 3)) = 0%nat /\
  exists s,
    run windows sched (init_system zero_ring (main_values 3)) = SysOk s /\
    run posix sched (init_system zero_ring (main_values 3)) = SysOk s /\
    (exists rest, main_values 3 = (c_rets (sys_cons s)).*1 ++ rest) /\
    Forall (fun r => r.2 = true) (c_rets (sys_cons s)).
Proof.
  intros sched.
  assert (Hwf : ring_wf zero_ring) by ring_wf_by_evaluation.
  assert (He : is_empty zero_ring) by reflexivity.
  assert (Hnw : full_waits windows sched (init_system zero_ring (main_values 3)) = 0%nat)
    by (vm_compute; reflexivity).
  destruct (run windows sched (init_system zero_ring (main_values 3))) as [s| |] eqn:Hrun;
    [|vm_compute in Hrun; discriminate..].
  split_and!; [exact Hwf|exact He|exact Hnw|].
  exists s. split; [reflexivity|].
  exact (windows_agrees_while_not_full zero_ring (main_values 3) sched s Hwf He Hnw Hrun).
Defined.

(** ** More on segment creation *)

(** X9.  The POSIX creation succeeds exactly when none of its calls fails,
    and otherwise its error is the one of the first call that failed:
    opening, then resizing, then mapping.  The Windows creation returns the
    error of creating the mapping object when that call fails and also
    whenever an object of that name exists already; otherwise the error of
    mapping the view when that fails; otherwise the region (there is no
    resizing call). *)
Theorem creation_error_names_first_failure (join : string -> string -> string)
    (flt : Faults) (word : Z) (name : string) (w : World) :
  (Posix.NewSharedAtomicRingBuffer join flt word name w).2
  = (if create_fails flt then inr failed_to_open_shared_memory_file
     else if resize_fails flt then inr failed_to_set_shared_memory_size
     else if map_fails flt then inr failed_to_map_shared_memory
     else inl (join "/tmp" name, Posix.segment_size word)) /\
  (Windows.NewSharedAtomicRingBuffer flt word name w).2
  = (if create_fails flt then inr failed_to_create_file_mapping
     else match stores w !! name with
          | Some _ => inr failed_to_create_file_mapping
          | None =>
              if map_fails flt then inr failed_to_map_view_of_file
              else inl (name, Windows.segment_size word)
          end).
Proof.
  split.
  - unfold Posix.NewSharedAtomicRingBuffer.
    generalize (Posix.segment_size word) as size. intros size.
    unfold os_OpenFile, syscall_Ftruncate, syscall_Mmap.
    destruct (create_fails flt); simpl; [done|].
    destruct (resize_fails flt); simpl; [done|].
    rewrite !lookup_insert_eq. simpl.
    destruct (map_fails flt); simpl; [done|].
    by rewrite lookup_insert_eq.
  - rewrite windows_creation_result.
    destruct (create_fails flt); [done|].
    destruct (stores w !! name); [done|].
    by destruct (map_fails flt).
Qed.

(** X10.  The handles and mapped regions a creation leaves behind, on
    every path.  On the POSIX backend the process holds exactly the
    descriptors it held before (the file is closed whether the creation
    succeeds or fails) and one more mapped region exactly when the creation
    succeeded.  On the Windows backend the handle of the mapping object is
    left open after a success and after the error on a name that exists,
    and is not held after the two other errors; there is one more view
    exactly when the creation succeeded. *)
Theorem creation_footprint (join : string -> string -> string)
    (flt : Faults) (word : Z) (name : string) (w : World) :
  let ok := negb (create_fails flt || resize_fails flt || map_fails flt) in
  let wp := (Posix.NewSharedAtomicRingBuffer join flt word name w).1 in
  let ww := (Windows.NewSharedAtomicRingBuffer flt word name w).1 in
  (handles wp = handles w /\
   views wp = views w ++
     (if ok then [(join "/tmp" name, Posix.segment_size word)] else [])) /\
  (handles ww
   = (if create_fails flt then handles w
      else match stores w !! name with
           | Some _ => <[fresh_handle w := name]> (handles w)
           | None =>
               if map_fails flt then handles w
               else <[fresh_handle w := name]> (handles w)
           end) /\
   views ww
   = views w ++
     (if create_fails flt then []
      else match stores w !! name with
           | Some _ => []
           | None =>
               if map_fails flt then []
               else [(name, Windows.segment_size word)]
           end)).
Proof.
  simpl. split.
  - unfold Posix.NewSharedAtomicRingBuffer.
    generalize (Posix.segment_size word) as size. intros size.
    unfold os_OpenFile, syscall_Ftruncate, syscall_Mmap, file_Close, os_Remove.
    destruct (create_fails flt); simpl.
    { by rewrite app_nil_r. }
    destruct (resize_fails flt); simpl.
    { by rewrite close_fresh, app_nil_r. }
    rewrite !lookup_insert_eq. simpl.
    destruct (map_fails flt); simpl.
    { by rewrite close_fresh, app_nil_r. }
    rewrite lookup_insert_eq. simpl.
    by rewrite close_fresh.
  - rewrite windows_creation_result.
    destruct (create_fails flt); simpl.
    { by rewrite app_nil_r. }
    destruct (stores w !! name); simpl.
    { by rewrite app_nil_r. }
    destruct (map_fails flt); simpl; [|done].
    by rewrite app_nil_r.
Qed.

(** ** [Close] (Windows) *)

Lemma le_uint_zeros n : le_uint (replicate n 0) = 0.
Proof. induction n as [|n IH]; simpl; [done|]. rewrite IH. done. Qed.

Lemma load_uintptr_zeros word n off : load_uintptr word (replicate n 0) off = 0.
Proof.
  unfold load_uintptr. rewrite drop_replicate, take_replicate. apply le_uint_zeros.
Qed.

Lemma Unmap_null bases w :
  Forall (fun b => b <> 0) bases ->
  windows_UnmapViewOfFile 0 bases w = (w, bases, false).
Proof.
  intros Hb. unfold windows_UnmapViewOfFile.
  destruct (list_find (fun b => b = 0) bases) as [[i b]|] eqn:Hfind; [|done].
  apply list_find_Some in Hfind as (Hi & -> & _).
  rewrite Forall_lookup in Hb. by destruct (Hb i 0 Hi).
Qed.

(** X11.  [Close] releases nothing on a segment this process created.  The
    creation never stores the address of the view into the field [addr],
    which lies in the shared region itself and is zero in a new mapping
    object; [Close] therefore calls [UnmapViewOfFile(0)], no view starts at
    address 0, the call fails and its error is dropped.  After creation and
    [Close] the view is still mapped and the handle of the mapping object is
    still open. *)
Theorem windows_Close_releases_nothing (word : Z) (name : string) (w : World)
    (bases : list Z) (base : Z) :
  word = 4 \/ word = 8 ->
  stores w !! name = None ->
  Forall (fun b => b <> 0) bases -> base <> 0 ->
  exists w1 region,
    Windows.NewSharedAtomicRingBuffer no_faults word name w = (w1, inl region) /\
    views w1 = views w ++ [region] /\
    handles w1 !! fresh_handle w = Some name /\
    WindowsClose.Close word (bases ++ [base]) region w1 = (w1, bases ++ [base]).
Proof.
  intros Hword Hnew Hbases Hbase.
  unfold Windows.NewSharedAtomicRingBuffer.
  assert (Hoff : Offsetof word Windows.SharedAtomicRingBuffer_fields "addr" = Some 8208).
  { by destruct Hword as [-> | ->]. }
  generalize (Windows.segment_size word) as size. intros size.
  unfold windows_CreateFileMapping, windows_MapViewOfFile. simpl.
  rewrite Hnew. simpl. rewrite lookup_insert_eq. simpl.
  do 2 eexists. split; [done|]. simpl.
  split_and!; [done|apply lookup_insert_eq|].
  unfold WindowsClose.Close. cbn [fst snd stores].
  rewrite lookup_insert_eq, Hoff, load_uintptr_zeros.
  rewrite Unmap_null; [done|].
  apply Forall_app. split; [done|]. by constructor.
Qed.

Lemma windows_Close_releases_nothing_witness :
  (8 = 4 \/ 8 = 8) /\
  stores empty_world !! "SharedRingBuffer" = None /\
  Forall (fun b => b <> 0) [65536] /\ 131072 <> 0 /\
  exists w1 region,
    Windows.NewSharedAtomicRingBuffer no_faults 8 "SharedRingBuffer" empty_world
      = (w1, inl region) /\
    views w1 = views empty_world ++ [region] /\
    handles w1 !! fresh_handle empty_world = Some "SharedRingBuffer" /\
    WindowsClose.Close 8 ([65536] ++ [131072]) region w1 = (w1, [65536] ++ [131072]).
Proof.
  assert (Hword : 8 = 4 \/ 8 = 8) by (right; reflexivity).
  assert (Hnew : stores empty_world !! "SharedRingBuffer" = None) by reflexivity.
  assert (Hbases : Forall (fun b => b <> 0) [65536]) by (repeat constructor; discriminate).
  assert (Hbase : 131072 <> 0) by discriminate.
  split_and!; [exact Hword|exact Hnew|exact Hbases|exact Hbase|].
  exact (windows_Close_releases_nothing 8 "SharedRingBuffer" empty_world
           [65536] 131072 Hword Hnew Hbases Hbase).
Defined.

(** ** [main] (POSIX) *)

Lemma posix_created_ring word (st : gmap string (list Z)) h v p :
  Posix.ring_of word
    (mkWorld (<[p := replicate (Z.to_nat (Posix.segment_size word)) 0]> st) h v)
    (p, Posix.segment_size word)
  = Some zero_ring.
Proof.
  unfold Posix.ring_of. simpl. rewrite lookup_insert_eq. simpl.
  vm_compute. reflexivity.
Qed.

Lemma fifo_inv_run_no_panic vs sched s :
  fifo_inv vs s -> run posix sched s <> SysPanic.
Proof.
  revert s. induction sched as [|t sched IH]; intros s Hinv; simpl; [done|].
  destruct (sys_step posix t s) as [s1| |] eqn:Hstep.
  - apply IH. eapply fifo_inv_step; [done|]. by exists t.
  - done.
  - by destruct (fifo_inv_no_panic vs s t Hinv).
Qed.

Lemma main_values_take k n : (k <= n)%nat -> take k (main_values n) = main_values k.
Proof.
  intros Hle. unfold main_values. rewrite <- fmap_take, take_seq.
  by rewrite Nat.min_l.
Qed.

Lemma main_values_count k :
  (k <= Z.to_nat 10000000)%nat -> main_values k = Z.of_nat <$> seq 1 k.
Proof.
  intros Hk. unfold main_values. rewrite <- fmap_S_seq, <- list_fmap_compose.
  apply list_fmap_ext. intros j i Hi. apply lookup_seq in Hi as [-> Hj]. simpl.
  unfold wrap64. rewrite Z.mod_small; lia.
Qed.

Lemma printed_lines l :
  Forall (fun r : Z * bool => r.2 = true) l ->
  flat_map (fun r : Z * bool => if r.2 then [consumer_line r.1] else []) l
  = consumer_line <$> l.*1.
Proof.
  induction 1 as [|[x b] l Hb _ IH]; [done|].
  simpl in *. subst b. simpl. by rewrite IH.
Qed.

Lemma fst_paired (l : list Z) : ((fun v => (v, true)) <$> l).*1 = l.
Proof. induction l as [|x l IH]; [done|]. rewrite !fmap_cons. simpl. by rewrite IH. Qed.

(** The lines printed in a state that satisfies the FIFO invariant. *)
Lemma consumer_printed_prefix vs s last_printed :
  fifo_inv vs s ->
  exists k, (k <= length vs)%nat /\
    consumer_printed last_printed (sys_cons s) = consumer_line <$> take k vs.
Proof.
  intros Hinv. destruct (fifo_inv_all_read vs s Hinv) as [Hle _].
  destruct Hinv as [_ _ _ Hh Ho _ _].
  assert (Htake : forall j,
    flat_map (fun r : Z * bool => if r.2 then [consumer_line r.1] else [])
      (take j (c_rets (sys_cons s)))
    = consumer_line <$> take (j `min` length (c_rets (sys_cons s))) vs).
  { intros j. rewrite printed_lines by by apply Forall_take.
    f_equal. rewrite fmap_take, <- Hh.
    rewrite take_app_le by (rewrite length_fmap; lia).
    rewrite <- take_take.
    rewrite (take_ge _ (length (c_rets (sys_cons s)))) by (rewrite length_fmap; lia).
    done. }
  assert (Hall : c_rets (sys_cons s) = take (length (c_rets (sys_cons s))) (c_rets (sys_cons s))).
  { by rewrite take_ge. }
  unfold consumer_printed.
  destruct (c_frame (sys_cons s)); [|destruct last_printed].
  - rewrite Hall, Htake. eexists. split; [|done]. lia.
  - rewrite Hall, Htake. eexists. split; [|done]. lia.
  - rewrite Htake. eexists. split; [|done]. lia.
Qed.

Lemma run_lockstep_prefix vs1 vs2 rb prets crets :
  ring_wf rb -> is_empty rb ->
  exists rb',
    run posix (lockstep (length vs1))
      (mkSystem rb (mkProducer None (vs1 ++ vs2) prets) (mkConsumer None crets))
    = SysOk (mkSystem rb'
               (mkProducer None vs2 (prets ++ replicate (length vs1) true))
               (mkConsumer None (crets ++ ((fun v => (v, true)) <$> vs1)))).
Proof.
  revert rb prets crets. induction vs1 as [|v vs1 IH]; intros rb prets crets Hwf He.
  - exists rb. simpl. by rewrite !app_nil_r.
  - destruct (IH (advanced (written rb v)) (prets ++ [true]) (crets ++ [(v, true)]))
      as (rb' & Hrun).
    { by apply advanced_wf, written_wf. }
    { by apply advanced_written_empty. }
    exists rb'.
    change (lockstep (length (v :: vs1))) with (round ++ lockstep (length vs1)).
    change ((v :: vs1) ++ vs2) with (v :: (vs1 ++ vs2)).
    rewrite run_app, run_round by done.
    rewrite Hrun, <- !app_assoc. done.
Qed.

(** X12.  What the POSIX program prints.  If a call of the creation fails,
    [main] ends in [log.Fatalf] before any goroutine runs.  Otherwise,
    whatever the scheduler does and whenever the sleep ends, no goroutine
    panics and standard output holds the lines "Consumer: Read 1",
    "Consumer: Read 2", ..., "Consumer: Read k" for some [k] up to
    10000000, with no gap, repeat or other value; and every such [k] is the
    output of some run. *)
Theorem posix_main_prints_in_order (join : string -> string -> string)
    (flt : Faults) (word : Z) (w : World) (sched : list Role) (last_printed : bool) :
  match PosixMain.main join flt word w sched last_printed with
  | Some (Fatal e) => create_fails flt || resize_fails flt || map_fails flt = true
  | Some (Exited stdout) =>
      create_fails flt || resize_fails flt || map_fails flt = false /\
      exists k, (k <= Z.to_nat 10000000)%nat /\
        stdout = (fun i => consumer_line (Z.of_nat i)) <$> seq 1 k
  | Some Crashed => False
  | None => True
  end /\
  forall k, (k <= Z.to_nat 10000000)%nat ->
    PosixMain.main join no_faults word w (lockstep k) true
    = Some (Exited ((fun i => consumer_line (Z.of_nat i)) <$> seq 1 k)).
Proof.
  assert (Hwf : ring_wf zero_ring) by ring_wf_by_evaluation.
  assert (He : is_empty zero_ring) by reflexivity.
  split.
  - unfold PosixMain.main.
    destruct (create_fails flt || resize_fails flt || map_fails flt) eqn:Hflt.
    + destruct (posix_creation_fails join flt word "SharedRingBuffer" w Hflt)
        as (w' & e & -> & _). done.
    + assert (flt = no_faults) as ->.
      { destruct flt as [[] [] []]; simpl in Hflt; done. }
      rewrite posix_creation_succeeds, posix_created_ring.
      set (vs := main_values (Z.to_nat 10000000)).
      pose proof (fifo_inv_init zero_ring vs Hwf He) as Hinit.
      destruct (run posix sched (init_system zero_ring vs)) as [s| |] eqn:Hrun.
      * split; [done|].
        pose proof (fifo_inv_reachable vs _ _ Hinit (run_reachable _ _ _ _ Hrun)) as Hinv.
        destruct (consumer_printed_prefix vs s last_printed Hinv) as (k & Hk & ->).
        assert (Hlen : length vs = Z.to_nat 10000000).
        { unfold vs, main_values. by rewrite length_fmap, length_seq. }
        exists k. split; [lia|].
        unfold vs. rewrite main_values_take, main_values_count by lia.
        by rewrite <- list_fmap_compose.
      * done.
      * by destruct (fifo_inv_run_no_panic vs sched _ Hinit).
  - intros k Hk. unfold PosixMain.main.
    rewrite posix_creation_succeeds, posix_created_ring.
    set (vs := main_values (Z.to_nat 10000000)).
    assert (Hsplit : vs = main_values k ++ drop k vs).
    { unfold vs. rewrite <- (main_values_take k (Z.to_nat 10000000)) by done.
      by rewrite take_drop. }
    assert (Hlenk : length (main_values k) = k).
    { unfold main_values. by rewrite length_fmap, length_seq. }
    destruct (run_lockstep_prefix (main_values k) (drop k vs) zero_ring [] [] Hwf He)
      as (rb' & Hrun).
    rewrite Hlenk in Hrun. unfold init_system. rewrite Hsplit, Hrun.
    unfold consumer_printed. simpl.
    rewrite printed_lines.
    + rewrite fst_paired, main_values_count by done.
      by rewrite <- list_fmap_compose.
    + apply Forall_fmap, Forall_true. done.
Qed.
